(** * translation-cli: nested-key catalogs, reconciliation and usage scan

    A shallow embedding of the catalog engines of translation-cli
    (src/utils/object.js, src/commands.js, src/translation.js,
    src/verification.js, src/usage-scanner.js) and the properties their
    specification states about them.

    Modelling conventions.
    - A catalog is parsed JSON: a nested object whose leaves are primitive
      values.  Objects are property lists in insertion order (the place
      JavaScript gives to integer-like keys is not modelled); property
      lookup reads own properties only, so segments that name members a
      value inherits from its prototype (or the index and length members of
      a string) are outside the model, as are array values.
    - The modules are ES modules, hence strict code: assigning a property
      on a primitive and applying [in] to a primitive raise a TypeError.
    - In-place mutation of a catalog is modelled by functional update of the
      tree; a catalog loaded from a file is a tree without sharing, so the
      two coincide.  Mutating functions return the final state of the
      object together with their completion (normal or abrupt).
    - Text is a [string] of bytes, the UTF-8 form of the JavaScript string.
    - The console and the creation of directories are left out.
*)

From stdpp Require Import gmap strings list sorting.
From Stdlib Require Import Ascii QArith.

Set Warnings "-register-all".

Local Close Scope Q_scope.
Local Open Scope string_scope.
Local Open Scope list_scope.

(** ** JavaScript values of a catalog *)

Inductive prim : Type :=
  | PNull
  | PBool (b : bool)
  | PNum (n : Z)
  | PStr (s : string).

Inductive value : Type :=
  | VPrim (p : prim)
  | VObj (props : list (string * value)).

(** [undefined] is the absence of a value: a read that may give it has an
    [option value]. *)

Inductive error : Type :=
  | TypeError
  | SyntaxError
  | InvalidKeyFormat
  | KeyNotFound
  | TargetExists
  | LanguageExists
  | InvalidLanguageCode.

Inductive completion : Type :=
  | Normal
  | Abrupt (e : error).

(** ** Own properties of an object *)

Module Obj.

Definition props : Type := list (string * value).

(** [o[k]] *)
Fixpoint get (o : props) (k : string) : option value :=
  match o with
  | [] => None
  | (k', v) :: o' => if String.eqb k' k then Some v else get o' k
  end.

(** [o[k] = v]: an existing property keeps its place, a new one is
    appended. *)
Fixpoint set (o : props) (k : string) (v : value) : props :=
  match o with
  | [] => [(k, v)]
  | (k', v') :: o' =>
      if String.eqb k' k then (k, v) :: o' else (k', v') :: set o' k v
  end.

(** [delete o[k]] *)
Fixpoint delete (o : props) (k : string) : props :=
  match o with
  | [] => []
  | (k', v) :: o' =>
      if String.eqb k' k then delete o' k else (k', v) :: delete o' k
  end.

(** [Object.keys(o)] *)
Definition keys (o : props) : list string := map fst o.

End Obj.

(** ** Dotted paths *)

(** [path.split('.')] *)
Fixpoint split_dot (s : string) : list string :=
  match s with
  | EmptyString => [EmptyString]
  | String c s' =>
      if Ascii.eqb c "."%char then EmptyString :: split_dot s'
      else match split_dot s' with
           | seg :: rest => String c seg :: rest
           | [] => [String c EmptyString]
           end
  end.

(** [keys.pop()]: the array without its last element, and that element. *)
Definition pop (l : list string) : list string * string :=
  (removelast l, List.last l EmptyString).

(** The segments of a path before the last one, and the last one. *)
Definition path_keys (path : string) : list string := (pop (split_dot path)).1.
Definition path_last (path : string) : string := (pop (split_dot path)).2.

(** ** src/utils/object.js *)

(** [current?.[key]] *)
Definition opt_index (current : option value) (key : string) : option value :=
  match current with
  | Some (VObj o) => Obj.get o key
  | _ => None
  end.

Definition get_keys (obj : value) (keys : list string) : option value :=
  fold_left opt_index keys (Some obj).

Definition getNestedProperty (obj : value) (path : string) : option value :=
  get_keys obj (split_dot path).

(** The [reduce] of [setNestedProperty] followed by the final assignment,
    run on the subtree [current]; the result is that subtree after the
    mutation.  A missing [key] is first bound to a fresh [{}], which lands
    where [Obj.set] puts a new property. *)
Fixpoint set_keys (current : value) (keys : list string) (lastKey : string)
    (v : value) : value * completion :=
  match keys with
  | [] =>
      match current with
      | VObj o => (VObj (Obj.set o lastKey v), Normal)
      | VPrim _ => (current, Abrupt TypeError)
      end
  | key :: keys' =>
      match current with
      | VPrim _ => (current, Abrupt TypeError)
      | VObj o =>
          let child := match Obj.get o key with
                       | Some c => c
                       | None => VObj []
                       end in
          let '(child', c) := set_keys child keys' lastKey v in
          (VObj (Obj.set o key child'), c)
      end
  end.

Definition setNestedProperty (obj : value) (path : string) (v : value)
    : value * completion :=
  let '(keys, lastKey) := pop (split_dot path) in
  set_keys obj keys lastKey v.

(** [x !== undefined] *)
Definition defined (x : option value) : bool :=
  match x with
  | Some _ => true
  | None => false
  end.

Definition translationExists (translations : value) (key : string) : bool :=
  defined (getNestedProperty translations key).

(** [Object.keys(obj).sort()]: the default sort orders strings by their
    code units. *)
Definition str_le (a b : string) : Prop := Is_true (String.leb a b).

Definition sort_keys (l : list string) : list string := merge_sort str_le l.

(** Every child is sorted first and the properties are then laid out in
    key order, which is what assigning [sorted[key]] in key order builds. *)
Fixpoint sortObjectRecursively (obj : value) : value :=
  match obj with
  | VPrim _ => obj
  | VObj o =>
      let o' := map (fun kv => (kv.1, sortObjectRecursively kv.2)) o in
      VObj (fold_left
              (fun sorted key => Obj.set sorted key (default obj (Obj.get o' key)))
              (sort_keys (Obj.keys o)) [])
  end.

(** [Object.assign(target, source)] *)
Definition assign (target source : Obj.props) : Obj.props :=
  fold_left (fun t kv => Obj.set t kv.1 kv.2) source target.

(** One turn of the loop of [flattenObject] on the entry [(key, v)]. *)
Fixpoint flatten_entry (prefix : string) (flattened : Obj.props)
    (key : string) (v : value) {struct v} : Obj.props :=
  let newKey := if String.eqb prefix "" then key else prefix +:+ "." +:+ key in
  match v with
  | VObj o =>
      assign flattened
        ((fix entries (o : list (string * value)) (acc : Obj.props) :=
            match o with
            | [] => acc
            | (k, v') :: o' => entries o' (flatten_entry newKey acc k v')
            end) o [])
  | VPrim _ => Obj.set flattened newKey v
  end.

Definition flattenObject (obj : Obj.props) (prefix : string) : Obj.props :=
  fold_left (fun flattened kv => flatten_entry prefix flattened kv.1 kv.2) obj [].

(** ** removeNestedProperty (src/commands.js) *)

(** [delete target[k]] for the object [target] reached from [obj] along
    [keys]. *)
Fixpoint delete_at (obj : value) (keys : list string) (k : string) : value :=
  match keys, obj with
  | [], VObj o => VObj (Obj.delete o k)
  | key :: keys', VObj o =>
      match Obj.get o key with
      | Some child => VObj (Obj.set o key (delete_at child keys' k))
      | None => obj
      end
  | _, VPrim _ => obj
  end.

(** Truthiness of a string that may be [undefined] or [null]: defined and
    not the empty string. *)
Definition truthy (s : option string) : bool :=
  match s with
  | Some s => negb (String.eqb s "")
  | None => false
  end.

(** The clean-up loop, from the turn whose [current] is the subtree
    [current] and whose remaining keys are [keys]; the result is that
    subtree after the loop.  Reading [current[key]] raises a TypeError when
    [current] is [null] or [undefined]; [current] becomes [undefined] only
    in a turn that is followed by another. *)
Fixpoint cleanup (current : value) (keys : list string) : value * completion :=
  match keys with
  | [] => (current, Normal)
  | key :: rest =>
      match current with
      | VPrim PNull => (current, Abrupt TypeError)
      | _ =>
          let child := opt_index (Some current) key in
          if truthy (head rest) then
            match child, current with
            | Some c, VObj o =>
                let '(c', r) := cleanup c rest in
                (VObj (Obj.set o key c'), r)
            | _, _ => (current, Abrupt TypeError)
            end
          else
            match child, current with
            | Some (VObj []), VObj o => cleanup (VObj (Obj.delete o key)) rest
            | _, _ => cleanup current rest
            end
      end
  end.

Definition removeNestedProperty (obj : value) (path : string)
    : value * completion :=
  let '(keys, lastKey) := pop (split_dot path) in
  match get_keys obj keys with
  | Some (VObj _) => cleanup (delete_at obj keys lastKey) keys
  | _ => (obj, Normal)
  end.

(** ** Files, configuration and collaborators *)

(** What [<langCode>.json] holds when it exists: a JSON object, or text that
    [JSON.parse] rejects. *)
Inductive file : Type :=
  | Json (tree : Obj.props)
  | Corrupt.

Record config : Type := Config {
  langDir : string;
  sourceLanguage : string;
  languages : list (string * string)
}.

(** The effects of a command that leave the process, each tagged with the
    language being processed. *)
Inductive event : Type :=
  | Translated (langCode text target source : string)
  | BatchTranslated (langCode : string) (texts : list value)
      (target : string) (source : option string)
  | Prompted (langCode key : string)
  | Saved (langCode : string) (tree : value).

Definition event_lang (e : event) : string :=
  match e with
  | Translated l _ _ _ => l
  | BatchTranslated l _ _ _ => l
  | Prompted l _ => l
  | Saved l _ => l
  end.

(** The language directory (one file per code), the configuration files of
    the working directory, and the events so far, oldest first. *)
Record world : Type := World {
  catalogs : gmap string file;
  config_files : gmap string config;
  trace : list event
}.

(** The collaborators of the engines: the text-generation calls of
    src/translation.js, the confirmation prompt, and [path.relative].  An
    answer may depend on everything that happened before the call. *)
Class Collaborators : Type := {
  translateText : list event -> string -> string -> string -> option string;
  batchTranslate :
    list event -> list value -> string -> option string -> option (list string);
  confirmReplacement : list event -> string -> value -> string -> bool;
  path_relative : string -> string -> string
}.

(** ** Commands: state and exceptions *)

Inductive outcome (A : Type) : Type :=
  | Done (a : A)
  | Failed (e : error).
Arguments Done {A} a.
Arguments Failed {A} e.

Definition M (A : Type) : Type := world -> world * outcome A.

#[global] Instance M_ret : MRet M := fun A a w => (w, Done a).

#[global] Instance M_bind : MBind M := fun A B f m w =>
  match m w with
  | (w', Done a) => f a w'
  | (w', Failed e) => (w', Failed e)
  end.

Definition throw {A : Type} (e : error) : M A := fun w => (w, Failed e).

Definition emit (e : event) : M unit := fun w =>
  (World (catalogs w) (config_files w) (trace w ++ [e]), Done tt).

Definition history : M (list event) := fun w => (w, Done (trace w)).

(** A completion of a tree operation, turned into a result or an
    exception. *)
Definition complete (r : value * completion) : M value :=
  match r with
  | (v, Normal) => mret v
  | (_, Abrupt e) => throw e
  end.

(** [for (const x of l) body(x)] *)
Fixpoint for_each {A : Type} (l : list A) (body : A -> M unit) : M unit :=
  match l with
  | [] => mret tt
  | x :: l' => _ ← body x; for_each l' body
  end.

(** ** src/utils/file.js *)

Definition loadTranslations (langCode : string) : M value := fun w =>
  match catalogs w !! langCode with
  | None => (w, Done (VObj []))
  | Some (Json tree) => (w, Done (VObj tree))
  | Some Corrupt => (w, Failed SyntaxError)
  end.

(** The root of a catalog is an object; [JSON.stringify] of it is read back
    by [JSON.parse] as the same tree. *)
Definition root (translations : value) : Obj.props :=
  match translations with
  | VObj o => o
  | VPrim _ => []
  end.

Definition saveTranslations (langCode : string) (translations : value)
    : M unit := fun w =>
  (World (<[langCode := Json (root translations)]> (catalogs w))
         (config_files w)
         (trace w ++ [Saved langCode translations]), Done tt).

Definition saveJsonFile (configFile : string) (data : config) : M unit :=
  fun w =>
  (World (catalogs w) (<[configFile := data]> (config_files w)) (trace w),
   Done tt).

(** [fs.access(configPath)] succeeds. *)
Definition access (configFile : string) : M bool := fun w =>
  (w, Done (bool_decide (is_Some (config_files w !! configFile)))).

(** ** Format checks *)

Definition in_range (lo hi : string) (c : ascii) : bool :=
  match lo, hi with
  | String l _, String h _ =>
      (N_of_ascii l <=? N_of_ascii c)%N && (N_of_ascii c <=? N_of_ascii h)%N
  | _, _ => false
  end.

Definition is_one_of (chars : list ascii) (c : ascii) : bool :=
  existsb (Ascii.eqb c) chars.

Definition all_chars (p : ascii -> bool) (s : string) : bool :=
  forallb p (String.list_ascii_of_string s).

(** [[a-zA-Z0-9._-]] *)
Definition key_char (c : ascii) : bool :=
  in_range "a" "z" c || in_range "A" "Z" c || in_range "0" "9" c
  || is_one_of ["."; "_"; "-"]%char c.

(** [/^[a-zA-Z0-9._-]+$/.test(key)] *)
Definition valid_key (key : string) : bool :=
  negb (String.eqb key "") && all_chars key_char key.

(** [/^[a-z]{2}-[a-z]{2}$/.test(langCode)] *)
Definition valid_lang_code (langCode : string) : bool :=
  match String.list_ascii_of_string langCode with
  | [a; b; d; e; f] =>
      in_range "a" "z" a && in_range "a" "z" b && Ascii.eqb d "-"
      && in_range "a" "z" e && in_range "a" "z" f
  | _ => false
  end.

(** [config.languages[langCode]] *)
Fixpoint language_name (langs : list (string * string)) (langCode : string)
    : option string :=
  match langs with
  | [] => None
  | (code, name) :: langs' =>
      if String.eqb code langCode then Some name
      else language_name langs' langCode
  end.

(** [{ ...config.languages, [langCode]: languageName }] *)
Fixpoint set_language (langs : list (string * string))
    (langCode languageName : string) : list (string * string) :=
  match langs with
  | [] => [(langCode, languageName)]
  | (code, name) :: langs' =>
      if String.eqb code langCode then (code, languageName) :: langs'
      else (code, name) :: set_language langs' langCode languageName
  end.

(** ** renameTranslationKey, removeTranslationKey, addNewLanguage
       (src/commands.js) *)

Section Commands.
Context {io : Collaborators}.

(** The first loop of [renameTranslationKey]: which of the two keys some
    language holds. *)
Fixpoint rename_scan (langs : list (string * string)) (oldKey newKey : string)
    (keyExists newKeyExists : bool) : M (bool * bool) :=
  match langs with
  | [] => mret (keyExists, newKeyExists)
  | (langCode, _) :: langs' =>
      translations ← loadTranslations langCode;
      rename_scan langs' oldKey newKey
        (if defined (getNestedProperty translations oldKey) then true
         else keyExists)
        (if defined (getNestedProperty translations newKey) then true
         else newKeyExists)
  end.

Definition renameTranslationKey (oldKey newKey : string) (cfg : config)
    (force : bool) : M unit :=
  if negb (valid_key newKey) then throw InvalidKeyFormat else
  flags ← rename_scan (languages cfg) oldKey newKey false false;
  if negb flags.1 then throw KeyNotFound else
  if flags.2 && negb force then throw TargetExists else
  for_each (languages cfg) (fun lang =>
    translations ← loadTranslations lang.1;
    match getNestedProperty translations oldKey with
    | Some oldValue =>
        t1 ← complete (setNestedProperty translations newKey oldValue);
        t2 ← complete (removeNestedProperty t1 oldKey);
        saveTranslations lang.1 (sortObjectRecursively t2)
    | None => mret tt
    end).

(** The first loop of [removeTranslationKey] stops at the first language
    that holds the key. *)
Fixpoint remove_scan (langs : list (string * string)) (key : string)
    : M bool :=
  match langs with
  | [] => mret false
  | (langCode, _) :: langs' =>
      translations ← loadTranslations langCode;
      if defined (getNestedProperty translations key) then mret true
      else remove_scan langs' key
  end.

Definition removeTranslationKey (key : string) (cfg : config) : M unit :=
  keyExists ← remove_scan (languages cfg) key;
  if negb keyExists then throw KeyNotFound else
  for_each (languages cfg) (fun lang =>
    translations ← loadTranslations lang.1;
    match getNestedProperty translations key with
    | Some _ =>
        t ← complete (removeNestedProperty translations key);
        saveTranslations lang.1 (sortObjectRecursively t)
    | None => mret tt
    end).

Record language_result : Type := LanguageResult {
  res_langCode : string;
  res_languageName : string;
  keysCount : nat;
  translated : bool;
  res_error : option string
}.

(** The loop over the two configuration file names: the first one that
    exists is rewritten. *)
Fixpoint update_config (configFiles : list string) (updated : config)
    : M bool :=
  match configFiles with
  | [] => mret false
  | configFile :: rest =>
      found ← access configFile;
      if (found : bool) then _ ← saveJsonFile configFile updated; mret true
      else update_config rest updated
  end.

(** [sourceKeys.forEach((key, index) => setNestedProperty(...))] *)
Fixpoint populate (newTranslations : value) (pairs : list (string * string))
    : M value :=
  match pairs with
  | [] => mret newTranslations
  | (key, text) :: pairs' =>
      t ← complete (setNestedProperty newTranslations key (VPrim (PStr text)));
      populate t pairs'
  end.

(** [!translatedTexts || translatedTexts.length !== n] *)
Definition batch_failed (translatedTexts : option (list string)) (n : nat)
    : bool :=
  match translatedTexts with
  | Some texts => negb (Nat.eqb (length texts) n)
  | None => true
  end.

(** The source texts are the values under the keys of the flattened
    catalog, all of them defined. *)
Definition addNewLanguage (langCode languageName : string) (cfg : config)
    (translateFromSource : bool) : M language_result :=
  if truthy (language_name (languages cfg) langCode)
  then throw LanguageExists else
  if negb (valid_lang_code langCode) then throw InvalidLanguageCode else
  let updatedConfig :=
    Config (langDir cfg) (sourceLanguage cfg)
      (set_language (languages cfg) langCode languageName) in
  configUpdated ←
    update_config [".translation-cli.json"; "translation-cli.config.json"]
      updatedConfig;
  _ ← (if (configUpdated : bool) then mret tt
       else saveJsonFile ".translation-cli.json" updatedConfig);
  sourceTranslations ← loadTranslations (sourceLanguage cfg);
  let flatSourceTranslations := flattenObject (root sourceTranslations) "" in
  let sourceKeys := Obj.keys flatSourceTranslations in
  if bool_decide (length sourceKeys = 0) then
    _ ← saveTranslations langCode (sortObjectRecursively (VObj []));
    mret (LanguageResult langCode languageName 0 false None)
  else if translateFromSource then
    let sourceTexts :=
      omap (fun key => Obj.get flatSourceTranslations key) sourceKeys in
    let sourceLanguageName :=
      language_name (languages cfg) (sourceLanguage cfg) in
    past ← history;
    _ ← emit (BatchTranslated langCode sourceTexts languageName
                sourceLanguageName);
    let translatedTexts :=
      batchTranslate past sourceTexts languageName sourceLanguageName in
    if batch_failed translatedTexts (length sourceTexts) then
      _ ← saveTranslations langCode (sortObjectRecursively (VObj []));
      mret (LanguageResult langCode languageName 0 false
              (Some "Translation failed"))
    else
      newTranslations ←
        populate (VObj []) (combine sourceKeys (default [] translatedTexts));
      _ ← saveTranslations langCode (sortObjectRecursively newTranslations);
      mret (LanguageResult langCode languageName (length sourceKeys) true None)
  else
    _ ← saveTranslations langCode (sortObjectRecursively (VObj []));
    mret (LanguageResult langCode languageName 0 false None).

End Commands.

(** ** addTranslation (src/translation.js) *)

Section Translation.
Context {io : Collaborators}.

(** The conflict policy: whether the language at hand is written.  The
    prompt is reached only when the key exists, [force] is off and the
    run is interactive. *)
Definition should_write (langCode key sourceText : string)
    (translations : value) (force interactive : bool) : M bool :=
  if translationExists translations key then
    if negb force && interactive then
      past ← history;
      _ ← emit (Prompted langCode key);
      mret (confirmReplacement past key
              (default (VPrim PNull) (getNestedProperty translations key))
              sourceText)
    else mret force
  else mret true.

(** The text to store: the source text itself for the source language,
    else the translation, [None] when the call gave nothing usable. *)
Definition text_for (langCode languageName sourceText : string)
    (cfg : config) : M (option string) :=
  if String.eqb langCode (sourceLanguage cfg) then mret (Some sourceText)
  else
    let name := language_name (languages cfg) (sourceLanguage cfg) in
    let sourceLanguageName :=
      if truthy name then default "Portuguese" name else "Portuguese" in
    past ← history;
    _ ← emit (Translated langCode sourceText languageName sourceLanguageName);
    let translatedText :=
      translateText past sourceText languageName sourceLanguageName in
    mret (if truthy translatedText then translatedText else None).

(** The body of the loop over the languages; [{ ...translations }] copies
    the root object, which nothing else refers to afterwards. *)
Definition add_to_language (key sourceText : string) (cfg : config)
    (force interactive : bool) (lang : string * string) : M unit :=
  translations ← loadTranslations lang.1;
  shouldReplace ← should_write lang.1 key sourceText translations force
                    interactive;
  if negb shouldReplace then mret tt else
  translatedText ← text_for lang.1 lang.2 sourceText cfg;
  match translatedText with
  | None => mret tt
  | Some text =>
      updatedTranslations ←
        complete (setNestedProperty translations key (VPrim (PStr text)));
      saveTranslations lang.1 (sortObjectRecursively updatedTranslations)
  end.

Definition addTranslation (key sourceText : string) (cfg : config)
    (force interactive : bool) : M unit :=
  for_each (languages cfg)
    (add_to_language key sourceText cfg force interactive).

End Translation.

(** ** src/verification.js *)

(** [set.add(k)] on a [Set] kept in insertion order. *)
Definition set_add (s : list string) (k : string) : list string :=
  if bool_decide (k ∈ s) then s else s ++ [k].

Inductive issue_type : Type := Missing | Extra.

Record issue : Type := Issue {
  issue_kind : issue_type;
  issue_langCode : string;
  issue_languageName : string;
  issue_keys : list string
}.

Record verification : Type := Verification {
  isValid : bool;
  issues : list issue;
  totalKeys : option nat;
  allKeys : option (list string)
}.

Fixpoint all_keys_loop (langs : list (string * string)) (allKeys : list string)
    : M (list string) :=
  match langs with
  | [] => mret allKeys
  | (langCode, _) :: langs' =>
      translations ← loadTranslations langCode;
      let flatTranslations := flattenObject (root translations) "" in
      all_keys_loop langs' (fold_left set_add (Obj.keys flatTranslations) allKeys)
  end.

Definition getAllKeys (cfg : config) : M (list string) :=
  allKeys ← all_keys_loop (languages cfg) [];
  mret (sort_keys allKeys).

Definition getMissingKeys (langCode : string) (allKeys : list string)
    : M (list string) :=
  translations ← loadTranslations langCode;
  let flatTranslations := flattenObject (root translations) "" in
  let existingKeys := Obj.keys flatTranslations in
  mret (filter (fun key => key ∉ existingKeys) allKeys).

Definition getExtraKeys (langCode : string) (allKeys : list string)
    : M (list string) :=
  translations ← loadTranslations langCode;
  let flatTranslations := flattenObject (root translations) "" in
  let existingKeys := Obj.keys flatTranslations in
  mret (filter (fun key => key ∉ allKeys) existingKeys).

(** The loop of [verifyTranslations] over the languages, with the issues
    found so far and the [hasIssues] flag. *)
Fixpoint verify_loop (langs : list (string * string)) (allKeys : list string)
    (issues : list issue) (hasIssues : bool) : M (list issue * bool) :=
  match langs with
  | [] => mret (issues, hasIssues)
  | (langCode, languageName) :: langs' =>
      missingKeys ← getMissingKeys langCode allKeys;
      extraKeys ← getExtraKeys langCode allKeys;
      let '(issues1, hasIssues1) :=
        if bool_decide (0 < length missingKeys)
        then (issues ++ [Issue Missing langCode languageName missingKeys], true)
        else (issues, hasIssues) in
      let issues2 :=
        if bool_decide (0 < length extraKeys)
        then issues1 ++ [Issue Extra langCode languageName extraKeys]
        else issues1 in
      verify_loop langs' allKeys issues2 hasIssues1
  end.

Definition verifyTranslations (cfg : config) : M verification :=
  allKeys ← getAllKeys cfg;
  if bool_decide (length allKeys = 0) then
    mret (Verification true [] None None)
  else
    found ← verify_loop (languages cfg) allKeys [] false;
    mret (Verification (negb found.2) found.1 (Some (length allKeys))
            (Some allKeys)).

(** ** src/usage-scanner.js *)

(** [\w] *)
Definition word_char (c : ascii) : bool :=
  in_range "a" "z" c || in_range "A" "Z" c || in_range "0" "9" c
  || Ascii.eqb c "_".

Definition byte_is (n : N) (c : ascii) : bool := (N_of_ascii c =? n)%N.

(** [\s*]: the text after its leading white space.  The white space of
    JavaScript is tab, line feed, vertical tab, form feed, carriage return,
    space, and U+00A0, U+1680, U+2000 to U+200A, U+2028, U+2029, U+202F,
    U+205F, U+3000 and U+FEFF, here in their UTF-8 form. *)
Fixpoint skip_space (s : string) : string :=
  match s with
  | String c s1 =>
      if (9 <=? N_of_ascii c)%N && (N_of_ascii c <=? 13)%N || byte_is 32 c
      then skip_space s1
      else
        match s1 with
        | String c1 s2 =>
            if byte_is 194 c && byte_is 160 c1 then skip_space s2
            else
              match s2 with
              | String c2 s3 =>
                  if byte_is 225 c && byte_is 154 c1 && byte_is 128 c2
                     || byte_is 226 c && byte_is 128 c1
                        && ((128 <=? N_of_ascii c2)%N && (N_of_ascii c2 <=? 138)%N
                            || byte_is 168 c2 || byte_is 169 c2 || byte_is 175 c2)
                     || byte_is 226 c && byte_is 129 c1 && byte_is 159 c2
                     || byte_is 227 c && byte_is 128 c1 && byte_is 128 c2
                     || byte_is 239 c && byte_is 187 c1 && byte_is 191 c2
                  then skip_space s3
                  else s
              | EmptyString => s
              end
        | EmptyString => s
        end
  | EmptyString => s
  end.

(** The text after the literal [lit], when the text starts with it. *)
Fixpoint strip (lit s : string) : option string :=
  match lit, s with
  | EmptyString, _ => Some s
  | String a lit', String b s' => if Ascii.eqb a b then strip lit' s' else None
  | String _ _, EmptyString => None
  end.

(** The longest prefix of characters satisfying [p], and what follows. *)
Fixpoint span (p : ascii -> bool) (s : string) : string * string :=
  match s with
  | String c s' =>
      if p c then let '(run, rest) := span p s' in (String c run, rest)
      else (EmptyString, s)
  | EmptyString => (EmptyString, EmptyString)
  end.

(** A call pattern: [boundary] for a leading [\b], the literal callee, the
    set of opening and closing quotes, and the characters a literal may not
    contain. *)
Record pattern : Type := Pattern {
  boundary : bool;
  callee : string;
  quotes : list ascii;
  excluded : list ascii
}.

(** The single quote, the double quote (character 34) and the backtick. *)
Definition any_quote : list ascii := ["'"; "034"; "`"]%char.
Definition backtick : list ascii := ["`"]%char.

Definition TRANSLATION_PATTERNS : list pattern :=
  [ Pattern true "t" any_quote any_quote;
    Pattern true "t" backtick backtick;
    Pattern false "$t" any_quote any_quote;
    Pattern false "i18n.t" any_quote any_quote ].

(** One attempt of a pattern at the position whose preceding character is
    [prev] and whose remaining text is [s]: the captured literal and the
    text after the match.  Every starred or plussed class is followed by a
    character outside it, so the longest run is the only one that can
    match. *)
Definition match_here (p : pattern) (prev : option ascii) (s : string)
    : option (string * string) :=
  if boundary p && match prev with Some c => word_char c | None => false end
  then None else
  s1 ← strip (callee p) s;
  s2 ← strip "(" (skip_space s1);
  match skip_space s2 with
  | String q s3 =>
      if is_one_of (quotes p) q then
        let '(key, s4) := span (fun c => negb (is_one_of (excluded p) c)) s3 in
        match key, s4 with
        | String _ _, String q' s5 =>
            if is_one_of (quotes p) q' then Some (key, s5) else None
        | _, _ => None
        end
      else None
  | EmptyString => None
  end.

(** [while ((match = pattern.exec(content)) !== null)]: the literals of the
    successive matches.  [skip] counts the characters of the last match that
    still lie ahead, over which [lastIndex] has already moved. *)
Fixpoint exec_all (p : pattern) (prev : option ascii) (skip : nat) (s : string)
    : list string :=
  match s with
  | EmptyString => []
  | String c s' =>
      match skip with
      | S n => exec_all p (Some c) n s'
      | O =>
          match match_here p prev s with
          | Some (key, rest) =>
              key :: exec_all p (Some c) (String.length s - String.length rest - 1) s'
          | None => exec_all p (Some c) 0 s'
          end
      end
  end.

(** [s.includes(sub)] *)
Fixpoint includes (s sub : string) : bool :=
  match strip sub s with
  | Some _ => true
  | None =>
      match s with
      | String _ s' => includes s' sub
      | EmptyString => false
      end
  end.

(** A key built at run time. *)
Definition dynamic (key : string) : bool :=
  includes key "${" || includes key "{{" || includes key "+".

Definition extractTranslationKeys (content : string) : list string :=
  fold_left
    (fun keys p =>
       fold_left
         (fun keys key => if negb (dynamic key) then set_add keys key else keys)
         (exec_all p None 0 content) keys)
    TRANSLATION_PATTERNS [].

(** A file of the scan: its path and what reading it gives, [None] when
    the read fails. *)
Record source_file : Type := SourceFile {
  filePath : string;
  content : option string
}.

Definition scanFile (f : source_file) : option (list string) :=
  option_map extractTranslationKeys (content f).

Record scan_result : Type := ScanResult {
  usedKeys : list string;
  unusedKeys : list string;
  scan_totalKeys : nat;
  usageRate : option Q;
  keyUsageMap : option (list (string * list string));
  scannedFiles : option nat;
  errorFiles : option nat
}.

(** [keyUsageMap.get(key).push(file)], after the entry was created when
    missing. *)
Fixpoint usage_push (m : list (string * list string)) (key file : string)
    : list (string * list string) :=
  match m with
  | [] => [(key, [file])]
  | (k, files) :: m' =>
      if String.eqb k key then (k, files ++ [file]) :: m'
      else (k, files) :: usage_push m' key file
  end.

Section Scanner.
Context {io : Collaborators}.

(** The loop over the files to scan. *)
Fixpoint scan_loop (scanDir : string) (files : list source_file)
    (usedKeys : list string) (keyUsageMap : list (string * list string))
    (scannedFiles errorFiles : nat)
    : list string * list (string * list string) * nat * nat :=
  match files with
  | [] => (usedKeys, keyUsageMap, scannedFiles, errorFiles)
  | f :: files' =>
      match scanFile f with
      | None =>
          scan_loop scanDir files' usedKeys keyUsageMap (S scannedFiles)
            (S errorFiles)
      | Some keys =>
          scan_loop scanDir files'
            (fold_left set_add keys usedKeys)
            (fold_left
               (fun m key => usage_push m key (path_relative scanDir (filePath f)))
               keys keyUsageMap)
            (S scannedFiles) errorFiles
      end
  end.

(** [filesToScan] is what the directory walk [getFilesToScan] found.  The
    rate is the quotient of the two lengths, taken exactly. *)
Definition scanUnusedTranslations (cfg : config) (scanDir : string)
    (filesToScan : list source_file) : M scan_result :=
  sourceTranslations ← loadTranslations (sourceLanguage cfg);
  let flatTranslations := flattenObject (root sourceTranslations) "" in
  let allTranslationKeys := Obj.keys flatTranslations in
  if bool_decide (length allTranslationKeys = 0) then
    mret (ScanResult [] [] 0 None None None None)
  else if bool_decide (length filesToScan = 0) then
    mret (ScanResult [] allTranslationKeys (length allTranslationKeys)
            None None None None)
  else
    let '(usedKeys, keyUsageMap, scannedFiles, errorFiles) :=
      scan_loop scanDir filesToScan [] [] 0 0 in
    let unusedKeys := filter (fun key => key ∉ usedKeys) allTranslationKeys in
    mret (ScanResult usedKeys unusedKeys (length allTranslationKeys)
            (Some (inject_Z (Z.of_nat (length usedKeys))
                   / inject_Z (Z.of_nat (length allTranslationKeys))
                   * inject_Z 100)%Q)
            (Some keyUsageMap) (Some scannedFiles) (Some errorFiles)).

End Scanner.

(** ** Vocabulary of the properties *)

(** The non-empty prefixes of a list of segments. *)
Fixpoint nonempty_prefixes (keys : list string) : list (list string) :=
  match keys with
  | [] => []
  | k :: keys' => [k] :: map (cons k) (nonempty_prefixes keys')
  end.

(** A primitive value: a leaf of the tree. *)
Definition is_leaf (x : option value) : bool :=
  match x with
  | Some (VPrim _) => true
  | _ => false
  end.

(** Some non-empty prefix of [keys] resolves to a leaf of [tree]. *)
Definition leaf_along (tree : value) (keys : list string) : bool :=
  existsb (fun pre => is_leaf (get_keys tree pre)) (nonempty_prefixes keys).

(** Some segment of [path] before the last one resolves to a leaf of
    [tree]. *)
Definition leaf_on_the_way (tree : value) (path : string) : bool :=
  leaf_along tree (path_keys path).

(** An empty mapping. *)
Definition is_empty_object (x : option value) : bool :=
  match x with
  | Some (VObj []) => true
  | _ => false
  end.

(** [tree] without the mapping at [keys] when that mapping is empty (the
    root is never removed). *)
Definition prune_empty (tree : value) (keys : list string) : value :=
  match keys with
  | [] => tree
  | _ :: _ =>
      if is_empty_object (get_keys tree keys)
      then delete_at tree (removelast keys) (List.last keys EmptyString)
      else tree
  end.

(** No segment of [path] is the empty string. *)
Definition plain_path (path : string) : bool :=
  forallb (fun k => negb (String.eqb k "")) (split_dot path).

(** What [loadTranslations] gives for a language whose file is readable. *)
Definition stored (w : world) (langCode : string) : value :=
  match catalogs w !! langCode with
  | Some (Json tree) => VObj tree
  | _ => VObj []
  end.

(** No configured language has a file that fails to parse. *)
Definition readable (w : world) (cfg : config) : bool :=
  forallb (fun lang =>
             match catalogs w !! lang.1 with
             | Some Corrupt => false
             | _ => true
             end) (languages cfg).

(** Some configured language holds a value at [key]. *)
Definition holds_key (w : world) (cfg : config) (key : string) : bool :=
  existsb (fun lang => defined (getNestedProperty (stored w lang.1) key))
    (languages cfg).

(** The reference key set of a usage scan: the flattened keys of the source
    language. *)
Definition reference_keys (w : world) (cfg : config) : list string :=
  Obj.keys (flattenObject (root (stored w (sourceLanguage cfg))) "").

(** The usage rate as the specification words it: the used keys that belong
    to the reference set, over the reference set, as a percentage. *)
Definition spec_usageRate (referenceKeySet usedKeys : list string) : Q :=
  (inject_Z (Z.of_nat (length (filter (fun key => key ∈ referenceKeySet) usedKeys)))
   / inject_Z (Z.of_nat (length referenceKeySet)) * inject_Z 100)%Q.

(** [w'] differs from [w] by events of the language [l] and by the file of
    that language at most. *)
Definition frame (l : string) (w w' : world) : Prop :=
  (forall l', l' ≠ l -> catalogs w' !! l' = catalogs w !! l')
  /\ exists evs, trace w' = trace w ++ evs
                 /\ Forall (fun e => event_lang e = l) evs.

(** A command that only touches the language [l]. *)
Definition tagged {A : Type} (l : string) (m : M A) : Prop :=
  forall w, frame l w (m w).1.

(** ** Sample data *)

(** Collaborators that answer nothing: every translation call fails and
    every prompt is declined. *)
Definition offline : Collaborators :=
  {| translateText := fun _ _ _ _ => None;
     batchTranslate := fun _ _ _ _ => None;
     confirmReplacement := fun _ _ _ _ => false;
     path_relative := fun _ file => file |}.

(** A text-generation service whose batch answer is one line, whatever it
    was asked. *)
Definition garbled : Collaborators :=
  {| translateText := fun _ _ _ _ => None;
     batchTranslate := fun _ _ _ _ => Some ["Speichern"];
     confirmReplacement := fun _ _ _ _ => false;
     path_relative := fun _ file => file |}.

Definition sample_config : config :=
  Config "lang" "en-us"
    [("en-us", "American English"); ("pt-pt", "European Portuguese")].

Definition sample_en : Obj.props :=
  [("button", VObj [("save", VPrim (PStr "Save"));
                    ("cancel", VPrim (PStr "Cancel"))])].

Definition sample_pt : Obj.props :=
  [("button", VObj [("save", VPrim (PStr "Guardar"))])].

Definition sample_world : world :=
  World (<["en-us" := Json sample_en]> (<["pt-pt" := Json sample_pt]> ∅)) ∅ [].

(** One source file that uses a reference key, a key built at run time and
    a key that no catalog holds. *)
Definition sample_files : list source_file :=
  [SourceFile "src/Button.js"
     (Some "save(t('button.save')); t(`dynamic.${x}.key`); $t('phantom.key')")].

(** The result of a scan that completed. *)
Definition scan_of (run : world * outcome scan_result) : scan_result :=
  match run.2 with
  | Done r => r
  | Failed _ => ScanResult [] [] 0 None None None None
  end.

Definition sample_scan : scan_result :=
  scan_of (scanUnusedTranslations (io := offline) sample_config "." sample_files
             sample_world).

(** ** batchAddTranslations (src/translation.js) and generateMissingKeysJSON
       (src/commands.js) *)

(** [pairs.forEach(([key, v]) => setNestedProperty(obj, key, v))] on the
    object [obj], stopping at the first exception. *)
Fixpoint set_all (obj : value) (pairs : list (string * value)) : M value :=
  match pairs with
  | [] => mret obj
  | (key, v) :: pairs' =>
      t ← complete (setNestedProperty obj key v);
      set_all t pairs'
  end.

(** Truthiness of a catalog value. *)
Definition truthy_value (v : value) : bool :=
  match v with
  | VObj _ => true
  | VPrim PNull => false
  | VPrim (PBool b) => b
  | VPrim (PNum n) => negb (n =? 0)%Z
  | VPrim (PStr s) => negb (String.eqb s "")
  end.

(** [flatSourceTranslations[key] || ''] *)
Definition value_or_empty (flat : Obj.props) (key : string) : value :=
  match Obj.get flat key with
  | Some v => if truthy_value v then v else VPrim (PStr "")
  | None => VPrim (PStr "")
  end.

Definition generateMissingKeysJSON (cfg : config) (targetLanguage : string)
    : M value :=
  sourceTranslations ← loadTranslations (sourceLanguage cfg);
  let flatSourceTranslations := flattenObject (root sourceTranslations) "" in
  let sourceKeys := Obj.keys flatSourceTranslations in
  if bool_decide (length sourceKeys = 0) then mret (VObj []) else
  targetTranslations ← loadTranslations targetLanguage;
  let targetKeys := Obj.keys (flattenObject (root targetTranslations) "") in
  let missingKeys := filter (fun key => key ∉ targetKeys) sourceKeys in
  if bool_decide (length missingKeys = 0) then mret (VObj []) else
  missingTranslations ←
    set_all (VObj [])
      (map (fun key => (key, value_or_empty flatSourceTranslations key))
         missingKeys);
  mret (sortObjectRecursively missingTranslations).

Section BatchTranslation.
Context {io : Collaborators}.

(** The prompts for the pairs whose key exists, in order; a confirmed pair
    joins the pairs to write. *)
Fixpoint confirm_pairs (langCode : string) (translations : value)
    (existingPairs newPairs : list (string * string))
    : M (list (string * string)) :=
  match existingPairs with
  | [] => mret newPairs
  | entry :: rest =>
      past ← history;
      _ ← emit (Prompted langCode entry.1);
      let shouldReplace :=
        confirmReplacement past entry.1
          (default (VPrim PNull) (getNestedProperty translations entry.1))
          entry.2 in
      confirm_pairs langCode translations rest
        (if shouldReplace then newPairs ++ [entry] else newPairs)
  end.

(** The texts to store for the pairs to write, [None] when the batch call
    gave nothing usable. *)
Definition texts_for (langCode languageName : string) (cfg : config)
    (newPairs : list (string * string)) : M (option (list string)) :=
  if String.eqb langCode (sourceLanguage cfg) then mret (Some (map snd newPairs))
  else
    let textsToTranslate := map (fun entry => VPrim (PStr entry.2)) newPairs in
    let name := language_name (languages cfg) (sourceLanguage cfg) in
    let sourceLanguageName :=
      if truthy name then default "Portuguese" name else "Portuguese" in
    past ← history;
    _ ← emit (BatchTranslated langCode textsToTranslate languageName
                (Some sourceLanguageName));
    let translatedTexts :=
      batchTranslate past textsToTranslate languageName
        (Some sourceLanguageName) in
    mret (if batch_failed translatedTexts (length textsToTranslate) then None
          else translatedTexts).

(** The body of the loop of [batchAddTranslations] over the languages. *)
Definition batch_to_language (translationPairs : list (string * string))
    (cfg : config) (force interactive : bool) (lang : string * string)
    : M unit :=
  translations ← loadTranslations lang.1;
  let existingPairs :=
    List.filter (fun entry => translationExists translations entry.1)
      translationPairs in
  let newPairs :=
    List.filter (fun entry => negb (translationExists translations entry.1))
      translationPairs in
  let some_exist := negb (Nat.eqb (length existingPairs) 0) in
  newPairs ←
    (if some_exist && negb force && interactive
     then confirm_pairs lang.1 translations existingPairs newPairs
     else if some_exist && force then mret (newPairs ++ existingPairs)
     else mret newPairs);
  if Nat.eqb (length newPairs) 0 then mret tt else
  translatedTexts ← texts_for lang.1 lang.2 cfg newPairs;
  match translatedTexts with
  | None => mret tt
  | Some texts =>
      updatedTranslations ←
        set_all translations
          (combine (map fst newPairs) (map (fun text => VPrim (PStr text)) texts));
      saveTranslations lang.1 (sortObjectRecursively updatedTranslations)
  end.

Definition batchAddTranslations (translationPairs : list (string * string))
    (cfg : config) (force interactive : bool) : M unit :=
  for_each (languages cfg)
    (batch_to_language translationPairs cfg force interactive).

End BatchTranslation.

(** ** More vocabulary *)

(** Two lists of segments part ways: neither is a prefix of the other. *)
Fixpoint diverge (p q : list string) : bool :=
  match p, q with
  | a :: p', b :: q' => if String.eqb a b then diverge p' q' else true
  | _, _ => false
  end.

Definition paths_diverge (P Q : string) : bool :=
  diverge (split_dot P) (split_dot Q).

(** A mapping, as opposed to a leaf. *)
Definition is_object (v : value) : bool :=
  match v with
  | VObj _ => true
  | VPrim _ => false
  end.

(** The catalog a file stands for: what [loadTranslations] reads from it
    when it parses. *)
Definition tree_of (f : option file) : value :=
  match f with
  | Some (Json tree) => VObj tree
  | _ => VObj []
  end.

(** [n] successive turns of a relation between the states of a file. *)
Fixpoint turns {A : Type} (step : A -> A -> Prop) (n : nat) (a b : A) : Prop :=
  match n with
  | O => a = b
  | S n' => exists c, step a c /\ turns step n' c b
  end.

(** How often the language [L] is listed. *)
Definition occurrences (L : string) (langs : list (string * string)) : nat :=
  length (List.filter (fun lang => String.eqb lang.1 L) langs).

(** The turns of the second loops of [renameTranslationKey] and
    [removeTranslationKey], named for the statements about them. *)
Definition rename_in_language (oldKey newKey : string) (lang : string * string)
    : M unit :=
  translations ← loadTranslations lang.1;
  match getNestedProperty translations oldKey with
  | Some oldValue =>
      t1 ← complete (setNestedProperty translations newKey oldValue);
      t2 ← complete (removeNestedProperty t1 oldKey);
      saveTranslations lang.1 (sortObjectRecursively t2)
  | None => mret tt
  end.

Definition remove_in_language (key : string) (lang : string * string)
    : M unit :=
  translations ← loadTranslations lang.1;
  match getNestedProperty translations key with
  | Some _ =>
      t ← complete (removeNestedProperty translations key);
      saveTranslations lang.1 (sortObjectRecursively t)
  | None => mret tt
  end.

(** What one turn of those loops does to the file of its language. *)
Definition rename_turn (oldKey newKey : string) (f1 f2 : option file) : Prop :=
  match getNestedProperty (tree_of f1) oldKey with
  | None => f2 = f1
  | Some v =>
      exists t1 t2,
        setNestedProperty (tree_of f1) newKey v = (t1, Normal)
        /\ removeNestedProperty t1 oldKey = (t2, Normal)
        /\ f2 = Some (Json (root (sortObjectRecursively t2)))
  end.

Definition remove_turn (key : string) (f1 f2 : option file) : Prop :=
  match getNestedProperty (tree_of f1) key with
  | None => f2 = f1
  | Some _ =>
      exists t,
        removeNestedProperty (tree_of f1) key = (t, Normal)
        /\ f2 = Some (Json (root (sortObjectRecursively t)))
  end.

(** The flattened keys of the catalog of a language. *)
Definition catalog_keys (w : world) (langCode : string) : list string :=
  Obj.keys (flattenObject (root (stored w langCode)) "").

(** The keys of a list part ways two by two: each later key with each
    earlier one. *)
Fixpoint all_diverge (keys : list string) : bool :=
  match keys with
  | [] => true
  | key :: rest =>
      forallb (fun later => paths_diverge later key) rest && all_diverge rest
  end.

(** A text-generation service that answers every text of a batch with the
    same word. *)
Definition wordy : Collaborators :=
  {| translateText := fun _ _ _ _ => Some "Wort";
     batchTranslate := fun _ texts _ _ => Some (map (fun _ => "Wort") texts);
     confirmReplacement := fun _ _ _ _ => true;
     path_relative := fun _ file => file |}.

(** A key as an object of a catalog has it: not empty and without a dot. *)
Definition segment (key : string) : bool :=
  negb (String.eqb key "") && all_chars (fun c => negb (Ascii.eqb c ".")) key.

(** Every object of the tree has each of its keys once, as [JSON.parse]
    gives it, and every key is a segment. *)
Fixpoint well_keyed (v : value) : bool :=
  match v with
  | VPrim _ => true
  | VObj o =>
      forallb segment (Obj.keys o) && bool_decide (NoDup (Obj.keys o))
      && forallb (fun kv => well_keyed kv.2) o
  end.

(** What a read gives when it is a leaf. *)
Definition keep_leaf (x : option value) : option value :=
  match x with
  | Some (VPrim p) => Some (VPrim p)
  | _ => None
  end.

(** [keys.join('.')] *)
Fixpoint join_dot (keys : list string) : string :=
  match keys with
  | [] => ""
  | [key] => key
  | key :: rest => key +:+ "." +:+ join_dot rest
  end.

(** The rest of a list of segments after the prefix [pre]. *)
Fixpoint drop_prefix (pre l : list string) : option (list string) :=
  match pre, l with
  | [], _ => Some l
  | a :: pre', b :: l' => if String.eqb a b then drop_prefix pre' l' else None
  | _ :: _, [] => None
  end.

(** The leaf that the path [K] names below the segments [pre], in the
    subtree [v] that sits there. *)
Definition leaf_under (pre : list string) (v : value) (K : string)
    : option value :=
  match drop_prefix pre (split_dot K) with
  | Some r => keep_leaf (get_keys v r)
  | None => None
  end.

(** The segments that the [prefix] argument of [flattenObject] stands
    for. *)
Definition pre_of (prefix : string) : list string :=
  if String.eqb prefix "" then [] else split_dot prefix.

(** [keyUsageMap.get(key)] *)
Fixpoint usage_get (m : list (string * list string)) (key : string)
    : option (list string) :=
  match m with
  | [] => None
  | (k, files) :: m' => if String.eqb k key then Some files else usage_get m' key
  end.

(** The files whose read fails. *)
Definition unreadable (files : list source_file) : list source_file :=
  List.filter (fun f => negb (bool_decide (is_Some (content f)))) files.

Section ScanVocabulary.
Context {io : Collaborators}.

(** The files of a scan whose text holds the key, in scan order, by the
    path the usage map shows for them. *)
Definition files_using (scanDir key : string) (files : list source_file)
    : list string :=
  map (fun f => path_relative scanDir (filePath f))
    (List.filter
       (fun f => match scanFile f with
                 | Some keys => bool_decide (key ∈ keys)
                 | None => false
                 end) files).

End ScanVocabulary.

(** The path [Q] lies below the path [P]: it continues it by at least one
    segment. *)
Definition below (P Q : string) : bool :=
  match drop_prefix (split_dot P) (split_dot Q) with
  | Some (_ :: _) => true
  | _ => false
  end.

(** * Properties *)

(** ** Own properties *)

Module ObjFacts.

Lemma get_set_eq o k v : Obj.get (Obj.set o k v) k = Some v.
Proof.
  induction o as [|[k' v'] o IH]; simpl.
  - by rewrite String.eqb_refl.
  - destruct (String.eqb_spec k' k) as [->|Hne]; simpl.
    + by rewrite String.eqb_refl.
    + by apply String.eqb_neq in Hne as ->.
Qed.

Lemma get_set_ne o k k' v :
  k ≠ k' -> Obj.get (Obj.set o k v) k' = Obj.get o k'.
Proof.
  intros Hkk'. induction o as [|[k0 v0] o IH]; simpl.
  - by apply String.eqb_neq in Hkk' as ->.
  - destruct (String.eqb_spec k0 k) as [->|Hne]; simpl.
    + by apply String.eqb_neq in Hkk' as ->.
    + by rewrite IH.
Qed.

Lemma set_get_id o k v : Obj.get o k = Some v -> Obj.set o k v = o.
Proof.
  induction o as [|[k' v'] o IH]; simpl; [done|].
  destruct (String.eqb_spec k' k) as [->|Hne]; [congruence|].
  intros Hget. by rewrite IH.
Qed.

Lemma set_set o k v v' : Obj.set (Obj.set o k v) k v' = Obj.set o k v'.
Proof.
  induction o as [|[k0 v0] o IH]; simpl.
  - by rewrite String.eqb_refl.
  - destruct (String.eqb_spec k0 k) as [->|Hne]; simpl.
    + by rewrite String.eqb_refl.
    + apply String.eqb_neq in Hne as ->. by rewrite IH.
Qed.

Lemma get_delete_eq o k : Obj.get (Obj.delete o k) k = None.
Proof.
  induction o as [|[k' v'] o IH]; simpl; [done|].
  destruct (String.eqb_spec k' k) as [->|Hne]; simpl; [done|].
  by apply String.eqb_neq in Hne as ->.
Qed.

Lemma delete_set o k v : Obj.delete (Obj.set o k v) k = Obj.delete o k.
Proof.
  induction o as [|[k' v'] o IH]; simpl.
  - by rewrite String.eqb_refl.
  - destruct (String.eqb_spec k' k) as [->|Hne]; simpl.
    + by rewrite String.eqb_refl.
    + apply String.eqb_neq in Hne as ->. by rewrite IH.
Qed.

Lemma delete_absent o k : Obj.get o k = None -> Obj.delete o k = o.
Proof.
  induction o as [|[k' v'] o IH]; simpl; [done|].
  destruct (String.eqb_spec k' k) as [->|Hne]; [done|].
  intros Hget. by rewrite IH.
Qed.

End ObjFacts.

(** ** Paths *)

Lemma split_dot_nonempty path : split_dot path ≠ [].
Proof.
  induction path as [|c path IH]; simpl; [done|].
  destruct (Ascii.eqb c "."); [done|]. by destruct (split_dot path).
Qed.

Lemma split_dot_pop path : split_dot path = path_keys path ++ [path_last path].
Proof.
  unfold path_keys, path_last, pop; simpl.
  apply app_removelast_last, split_dot_nonempty.
Qed.

Lemma fold_opt_index_None keys : fold_left opt_index keys None = None.
Proof. by induction keys. Qed.

Lemma get_keys_app tree pre suf :
  get_keys tree (pre ++ suf) = fold_left opt_index suf (get_keys tree pre).
Proof. unfold get_keys. by rewrite fold_left_app. Qed.

Lemma get_keys_cons o key keys :
  get_keys (VObj o) (key :: keys) =
  match Obj.get o key with
  | Some child => get_keys child keys
  | None => None
  end.
Proof.
  unfold get_keys; simpl. destruct (Obj.get o key); [done|].
  apply fold_opt_index_None.
Qed.

Lemma get_keys_prim p key keys : get_keys (VPrim p) (key :: keys) = None.
Proof. unfold get_keys; simpl. apply fold_opt_index_None. Qed.

Lemma getNestedProperty_pop tree path :
  getNestedProperty tree path =
  opt_index (get_keys tree (path_keys path)) (path_last path).
Proof.
  unfold getNestedProperty. by rewrite split_dot_pop, get_keys_app.
Qed.

(** ** setNestedProperty *)

Lemma existsb_false {A : Type} (l : list A) : existsb (fun _ => false) l = false.
Proof. by induction l. Qed.

Lemma existsb_ext {A : Type} (f g : A -> bool) (l : list A) :
  (forall x, f x = g x) -> existsb f l = existsb g l.
Proof. intros Hfg. induction l as [|x l IH]; simpl; [done|]. by rewrite Hfg, IH. Qed.

Lemma leaf_along_cons o key keys :
  leaf_along (VObj o) (key :: keys) =
  match Obj.get o key with
  | Some child => is_leaf (Some child) || leaf_along child keys
  | None => false
  end.
Proof.
  unfold leaf_along; simpl.
  assert (Hmap : forall (f : list string -> bool) l,
             existsb f (map (cons key) l) = existsb (fun pre => f (key :: pre)) l).
  { intros f l. induction l as [|x l IH]; simpl; [done|]. by rewrite IH. }
  rewrite Hmap.
  unfold get_keys at 1; simpl.
  destruct (Obj.get o key) as [child|] eqn:Hget; simpl.
  - f_equal. apply existsb_ext. intros pre.
    by rewrite get_keys_cons, Hget.
  - rewrite <- (existsb_false (nonempty_prefixes keys)).
    apply existsb_ext. intros pre. by rewrite get_keys_cons, Hget.
Qed.

Lemma nonempty_prefixes_cons keys pre :
  In pre (nonempty_prefixes keys) -> exists k pre', pre = k :: pre'.
Proof.
  destruct keys as [|k keys]; simpl; [done|].
  intros [<-|Hin]; [by eauto|].
  apply in_map_iff in Hin as (pre' & <- & _). by eauto.
Qed.

Lemma leaf_along_prim p keys : leaf_along (VPrim p) keys = false.
Proof.
  apply not_true_is_false. intros Hleaf.
  apply existsb_exists in Hleaf as (pre & Hin & Hleaf).
  apply nonempty_prefixes_cons in Hin as (k & pre' & ->).
  by rewrite get_keys_prim in Hleaf.
Qed.

Lemma set_keys_prim p keys lastKey v :
  set_keys (VPrim p) keys lastKey v = (VPrim p, Abrupt TypeError).
Proof. by destruct keys. Qed.

(** A leaf on the way stops the walk before anything is written. *)
Lemma set_keys_blocked keys : forall current lastKey v,
  is_leaf (Some current) || leaf_along current keys = true ->
  set_keys current keys lastKey v = (current, Abrupt TypeError).
Proof.
  induction keys as [|key keys IH]; intros [p|o] lastKey v Hleaf;
    try apply set_keys_prim.
  - done.
  - rewrite leaf_along_cons in Hleaf. simpl in Hleaf. simpl.
    destruct (Obj.get o key) as [child|] eqn:Hget; [|done].
    rewrite (IH child lastKey v Hleaf).
    by rewrite ObjFacts.set_get_id.
Qed.

(** Without one the walk ends normally and the path then reads [v]. *)
Lemma set_keys_free keys : forall current lastKey v,
  is_leaf (Some current) || leaf_along current keys = false ->
  exists current',
    set_keys current keys lastKey v = (current', Normal)
    /\ get_keys current' (keys ++ [lastKey]) = Some v.
Proof.
  induction keys as [|key keys IH]; intros [p|o] lastKey v Hleaf; try done.
  - eexists; split; [done|].
    unfold get_keys; simpl. apply ObjFacts.get_set_eq.
  - rewrite leaf_along_cons in Hleaf. simpl in Hleaf. simpl.
    set (child := match Obj.get o key with Some c => c | None => VObj [] end).
    assert (Hchild : is_leaf (Some child) || leaf_along child keys = false).
    { subst child. destruct (Obj.get o key); [done|].
      simpl. destruct keys; [done|]. by rewrite leaf_along_cons. }
    destruct (IH child lastKey v Hchild) as (child' & -> & Hread).
    eexists; split; [done|].
    by rewrite get_keys_cons, ObjFacts.get_set_eq.
Qed.







(** ** removeNestedProperty *)

Lemma prune_empty_snoc tree init k :
  prune_empty tree (init ++ [k]) =
  if is_empty_object (get_keys tree (init ++ [k])) then delete_at tree init k
  else tree.
Proof.
  unfold prune_empty. rewrite removelast_last, last_last.
  by destruct init.
Qed.

Lemma delete_at_obj o keys k : exists o', delete_at (VObj o) keys k = VObj o'.
Proof.
  destruct keys as [|key keys]; simpl; [by eauto|].
  destruct (Obj.get o key); by eauto.
Qed.

(** Reading a prefix of the path after a deletion below it. *)
Lemma get_keys_delete_at pre : forall current sub suf k,
  get_keys current pre = Some sub ->
  get_keys (delete_at current (pre ++ suf) k) pre = Some (delete_at sub suf k).
Proof.
  induction pre as [|key pre IH]; intros current sub suf k Hsub.
  - unfold get_keys in Hsub; simpl in Hsub. by injection Hsub as ->.
  - destruct current as [p|o]; [by rewrite get_keys_prim in Hsub|].
    rewrite get_keys_cons in Hsub. simpl.
    destruct (Obj.get o key) as [child|] eqn:Hget; [|done].
    rewrite get_keys_cons, ObjFacts.get_set_eq. by apply IH.
Qed.

Lemma delete_at_absent keys : forall current po k,
  get_keys current keys = Some (VObj po) -> Obj.get po k = None ->
  delete_at current keys k = current.
Proof.
  induction keys as [|key keys IH]; intros current po k Hget Hk.
  - unfold get_keys in Hget; simpl in Hget. injection Hget as ->.
    simpl. by rewrite ObjFacts.delete_absent.
  - destruct current as [p|o]; [done|].
    rewrite get_keys_cons in Hget. simpl.
    destruct (Obj.get o key) as [child|] eqn:Hchild; [|done].
    rewrite (IH child po k Hget Hk). by rewrite ObjFacts.set_get_id.
Qed.

(** Every position above an existing one holds a mapping. *)
Lemma get_keys_ancestor pre : forall current suf x,
  suf ≠ [] -> get_keys current (pre ++ suf) = Some x ->
  exists o, get_keys current pre = Some (VObj o).
Proof.
  induction pre as [|key pre IH]; intros current suf x Hsuf Hget.
  - destruct current as [p|o]; [|by eauto].
    destruct suf; [done|]. simpl in Hget. by rewrite get_keys_prim in Hget.
  - simpl in Hget.
    destruct current as [p|o]; [by rewrite get_keys_prim in Hget|].
    rewrite get_keys_cons in Hget. rewrite get_keys_cons.
    destruct (Obj.get o key) as [child|]; [|done]. by eapply IH.
Qed.

(** On a path of non-empty segments that exists, the loop of
    [removeNestedProperty] walks down to the parent of the last key and
    deletes what that key holds when it is an empty mapping; nothing else
    is touched. *)
Lemma cleanup_prunes init : forall current k x,
  forallb (fun s => negb (String.eqb s "")) (init ++ [k]) = true ->
  get_keys current (init ++ [k]) = Some x ->
  cleanup current (init ++ [k]) = (prune_empty current (init ++ [k]), Normal).
Proof.
  induction init as [|key init IH]; intros current k x Hplain Hget;
    rewrite prune_empty_snoc; cbn [app] in Hget;
    (destruct current as [p|o]; [by rewrite get_keys_prim in Hget|]).
  - simpl. unfold get_keys in *; simpl in *.
    destruct (Obj.get o k) as [[p|[|kv po]]|]; done.
  - simpl in Hplain. apply andb_true_iff in Hplain as [_ Hplain].
    rewrite get_keys_cons in Hget.
    assert (Hnext : truthy (head (init ++ [k])) = true).
    { destruct init; simpl in *; by apply andb_true_iff in Hplain as [-> _]. }
    cbn [cleanup app]. rewrite Hnext. cbn [opt_index].
    rewrite get_keys_cons.
    destruct (Obj.get o key) as [child|] eqn:Hchild; [|done].
    rewrite (IH child k x Hplain Hget), prune_empty_snoc.
    destruct (is_empty_object (get_keys child (init ++ [k]))); simpl.
    + by rewrite Hchild.
    + by rewrite ObjFacts.set_get_id.
Qed.

Lemma cleanup_prunes_keys keys current x :
  forallb (fun s => negb (String.eqb s "")) keys = true ->
  get_keys current keys = Some x ->
  cleanup current keys = (prune_empty current keys, Normal).
Proof.
  destruct keys as [|key keys] using rev_ind; [done|].
  intros. by eapply cleanup_prunes.
Qed.

Lemma plain_path_keys P :
  plain_path P = true ->
  forallb (fun s => negb (String.eqb s "")) (path_keys P) = true.
Proof.
  unfold plain_path. rewrite split_dot_pop, forallb_app.
  by intros [? _]%andb_true_iff.
Qed.

Lemma prune_empty_not_empty tree keys :
  is_empty_object (get_keys tree keys) = false -> prune_empty tree keys = tree.
Proof. unfold prune_empty. destruct keys; [done|]. by intros ->. Qed.



(** An empty segment inside the path makes the loop lose its place: the
    test of the next key takes the empty string for the end of the path. *)
Remark remove_empty_segment_throws :
  let T := VObj [("a", VObj [("", VObj [("c", VObj [("d", VPrim (PStr "x"))])])])] in
  getNestedProperty T "a..c.d" = Some (VPrim (PStr "x"))
  /\ (removeNestedProperty T "a..c.d").2 = Abrupt TypeError.
Proof. split; reflexivity. Qed.





(** ** Commands *)

Lemma bind_done {A B : Type} (m : M A) (f : A -> M B) w w' a :
  m w = (w', Done a) -> (m ≫= f) w = f a w'.
Proof. intros Hm. unfold mbind, M_bind. by rewrite Hm. Qed.

Lemma bind_failed {A B : Type} (m : M A) (f : A -> M B) w w' e :
  m w = (w', Failed e) -> (m ≫= f) w = (w', Failed e).
Proof. intros Hm. unfold mbind, M_bind. by rewrite Hm. Qed.

Lemma loadTranslations_stored w langCode :
  catalogs w !! langCode ≠ Some Corrupt ->
  loadTranslations langCode w = (w, Done (stored w langCode)).
Proof.
  unfold loadTranslations, stored.
  by destruct (catalogs w !! langCode) as [[tree|]|].
Qed.

Section CommandFacts.
Context {io : Collaborators}.

(** The scan of [renameTranslationKey] only reads: it leaves the world as
    it found it and reports which keys some language holds. *)
Lemma rename_scan_reads langs : forall oldKey newKey keyExists newKeyExists w,
  forallb (fun lang =>
             match catalogs w !! lang.1 with
             | Some Corrupt => false
             | _ => true
             end) langs = true ->
  rename_scan langs oldKey newKey keyExists newKeyExists w =
  (w, Done
        (keyExists
         || existsb (fun lang => defined (getNestedProperty (stored w lang.1) oldKey))
              langs,
         newKeyExists
         || existsb (fun lang => defined (getNestedProperty (stored w lang.1) newKey))
              langs)).
Proof.
  induction langs as [|[langCode name] langs IH];
    intros oldKey newKey keyExists newKeyExists w Hread; simpl.
  - by rewrite !orb_false_r.
  - simpl in Hread. apply andb_true_iff in Hread as [Hfile Hread].
    rewrite (bind_done _ _ w w (stored w langCode)).
    + rewrite (IH _ _ _ _ _ Hread). do 3 f_equal.
      * by destruct (defined _), keyExists.
      * by destruct (defined _), newKeyExists.
    + apply loadTranslations_stored.
      by destruct (catalogs w !! langCode) as [[|]|].
Qed.

End CommandFacts.


(** ** addTranslation *)

Lemma frame_refl l w : frame l w w.
Proof. split; [done|]. exists []. by rewrite app_nil_r. Qed.

Lemma frame_trans l w1 w2 w3 : frame l w1 w2 -> frame l w2 w3 -> frame l w1 w3.
Proof.
  intros [Hfiles12 (evs12 & Htrace12 & Hevs12)]
         [Hfiles23 (evs23 & Htrace23 & Hevs23)].
  split.
  - intros l' Hl'. by rewrite Hfiles23, Hfiles12.
  - exists (evs12 ++ evs23). split.
    + by rewrite Htrace23, Htrace12, app_assoc.
    + by apply Forall_app.
Qed.

Lemma tagged_ret {A : Type} l (a : A) : tagged l (mret a).
Proof. intros w. apply frame_refl. Qed.

Lemma tagged_throw {A : Type} l e : tagged l (@throw A e).
Proof. intros w. apply frame_refl. Qed.

Lemma tagged_bind {A B : Type} l (m : M A) (f : A -> M B) :
  tagged l m -> (forall a, tagged l (f a)) -> tagged l (m ≫= f).
Proof.
  intros Hm Hf w. specialize (Hm w). unfold mbind, M_bind.
  destruct (m w) as [w' [a|e]]; [|done].
  eapply frame_trans; [exact Hm|apply Hf].
Qed.

Lemma tagged_history l : tagged l history.
Proof. intros w. apply frame_refl. Qed.

Lemma tagged_load l langCode : tagged l (loadTranslations langCode).
Proof.
  intros w. unfold loadTranslations.
  destruct (catalogs w !! langCode) as [[tree|]|]; apply frame_refl.
Qed.

Lemma tagged_complete l r : tagged l (complete r).
Proof. destruct r as [v [|e]]; intros w; apply frame_refl. Qed.

Lemma tagged_emit e : tagged (event_lang e) (emit e).
Proof.
  intros w. split; [done|]. exists [e]. split; [done|]. by constructor.
Qed.

Lemma tagged_save langCode translations :
  tagged langCode (saveTranslations langCode translations).
Proof.
  intros w. split; simpl.
  - intros l' Hl'. by rewrite lookup_insert_ne.
  - eexists. split; [done|]. by constructor.
Qed.

Section TranslationFacts.
Context {io : Collaborators}.

(** Whatever the options, a turn of the loop of [addTranslation] touches
    the language of that turn only. *)
Lemma add_to_language_tagged key sourceText cfg force interactive lang :
  tagged lang.1 (add_to_language key sourceText cfg force interactive lang).
Proof.
  unfold add_to_language.
  apply tagged_bind; [apply tagged_load|]. intros translations.
  apply tagged_bind.
  { unfold should_write.
    destruct (translationExists translations key); [|apply tagged_ret].
    destruct (negb force && interactive); [|apply tagged_ret].
    apply tagged_bind; [apply tagged_history|]. intros past.
    apply tagged_bind; [apply (tagged_emit (Prompted _ _))|]. intros _.
    apply tagged_ret. }
  intros shouldReplace. destruct (negb shouldReplace); [apply tagged_ret|].
  apply tagged_bind.
  { unfold text_for.
    destruct (String.eqb lang.1 (sourceLanguage cfg)); [apply tagged_ret|].
    apply tagged_bind; [apply tagged_history|]. intros past.
    apply tagged_bind; [apply (tagged_emit (Translated _ _ _ _))|]. intros _.
    apply tagged_ret. }
  intros [text|]; [|apply tagged_ret].
  apply tagged_bind; [apply tagged_complete|]. intros updated.
  apply tagged_save.
Qed.

(** Without [force] and without a prompt, a language that holds the key is
    passed over: the turn changes nothing. *)
Lemma add_to_language_skips key sourceText cfg L name T w :
  catalogs w !! L = Some (Json T) ->
  translationExists (VObj T) key = true ->
  add_to_language key sourceText cfg false false (L, name) w = (w, Done tt).
Proof.
  intros Hfile Hexists.
  unfold add_to_language, mbind, M_bind, loadTranslations, should_write; simpl.
  by rewrite Hfile, Hexists.
Qed.

Lemma add_loop_skips key sourceText cfg L T langs : forall w w' r,
  catalogs w !! L = Some (Json T) ->
  translationExists (VObj T) key = true ->
  for_each langs (add_to_language key sourceText cfg false false) w = (w', r) ->
  catalogs w' !! L = Some (Json T)
  /\ exists evs, trace w' = trace w ++ evs
                 /\ Forall (fun e => event_lang e ≠ L) evs.
Proof.
  induction langs as [|[langCode name] langs IH]; intros w w' r Hfile Hexists Hrun.
  - injection Hrun as <- _. split; [done|]. exists []. by rewrite app_nil_r.
  - simpl in Hrun. unfold mbind, M_bind in Hrun.
    destruct (decide (langCode = L)) as [->|Hother].
    + rewrite (add_to_language_skips _ _ _ _ _ _ _ Hfile Hexists) in Hrun.
      by eapply IH.
    + pose proof (add_to_language_tagged key sourceText cfg false false
                    (langCode, name) w) as [Hfiles (evs1 & Htrace1 & Hevs1)].
      simpl in Hfiles.
      assert (Hevs1' : Forall (fun e => event_lang e ≠ L) evs1).
      { eapply Forall_impl; [exact Hevs1|]. simpl. by intros e ->. }
      destruct (add_to_language _ _ _ _ _ _ w) as [w1 [[]|e]]; simpl in *.
      * destruct (IH w1 w' r) as [Hfile' (evs2 & Htrace2 & Hevs2)];
          [by rewrite Hfiles|done|done|].
        split; [done|]. exists (evs1 ++ evs2). split.
        -- by rewrite Htrace2, Htrace1, app_assoc.
        -- by apply Forall_app.
      * injection Hrun as <- _. split; [by rewrite Hfiles|]. by eauto.
Qed.

(** C9: [addTranslation] with [force] and [interactive] both off, on a key
    that a language's catalog already resolves: whatever else the call
    does, that language's file is what it was, and no event of the call (no
    translation request, no prompt, no save) belongs to that language. *)
Theorem add_skips_existing_key (w : world) (cfg : config)
    (key sourceText L : string) (T : Obj.props) :
  catalogs w !! L = Some (Json T) ->
  translationExists (VObj T) key = true ->
  let w' := (addTranslation key sourceText cfg false false w).1 in
  catalogs w' !! L = Some (Json T)
  /\ exists evs, trace w' = trace w ++ evs
                 /\ Forall (fun e => event_lang e ≠ L) evs.
Proof.
  intros Hfile Hexists. simpl. unfold addTranslation.
  destruct (for_each _ _ w) as [w' r] eqn:Hrun.
  by eapply add_loop_skips.
Qed.
End TranslationFacts.

Lemma add_skips_existing_key_witness :
  let w' := (addTranslation (io := offline) "button.cancel" "Cancel" sample_config
               false false sample_world).1 in
  catalogs w' !! "en-us" = Some (Json sample_en)
  /\ exists evs, trace w' = trace sample_world ++ evs
                 /\ Forall (fun e => event_lang e ≠ "en-us") evs.
Proof.
  apply (add_skips_existing_key (io := offline) sample_world sample_config
           "button.cancel" "Cancel" "en-us" sample_en);
    vm_compute; reflexivity.
Defined.

(** ** addNewLanguage *)

Lemma update_config_keeps_catalogs configFiles updated : forall w,
  exists w1 found,
    update_config configFiles updated w = (w1, Done found)
    /\ catalogs w1 = catalogs w /\ trace w1 = trace w.
Proof.
  induction configFiles as [|configFile rest IH]; intros w; simpl.
  - by exists w, false.
  - unfold mbind, M_bind, access; simpl.
    destruct (bool_decide _); [|apply IH].
    by eexists _, true.
Qed.

(** C8: [addNewLanguage] asked to translate from a source catalog that has
    keys, when the batch call gives nothing or a list of another length
    than the source texts: the command completes, the file of the new
    language holds the empty catalog, and the result has no keys, is not
    translated and carries the error. *)
Theorem add_language_failed_batch {io : Collaborators} (w : world)
    (cfg : config) (langCode languageName : string) :
  truthy (language_name (languages cfg) langCode) = false ->
  valid_lang_code langCode = true ->
  reference_keys w cfg ≠ [] ->
  (let flat := flattenObject (root (stored w (sourceLanguage cfg))) "" in
   let sourceTexts := omap (fun key => Obj.get flat key) (Obj.keys flat) in
   batch_failed
     (batchTranslate (trace w) sourceTexts languageName
        (language_name (languages cfg) (sourceLanguage cfg)))
     (length sourceTexts) = true) ->
  exists w',
    addNewLanguage langCode languageName cfg true w =
    (w', Done (LanguageResult langCode languageName 0 false
                 (Some "Translation failed")))
    /\ catalogs w' !! langCode = Some (Json []).
Proof.
  intros Hnew Hcode Hkeys Hbatch. unfold addNewLanguage.
  rewrite Hnew, Hcode; simpl.
  set (updated := Config _ _ _).
  destruct (update_config_keeps_catalogs
              [".translation-cli.json"; "translation-cli.config.json"] updated w)
    as (w1 & found & Hupdate & Hfiles1 & Htrace1).
  rewrite (bind_done _ _ _ _ _ Hupdate).
  set (w2 := if found then w1
             else World (catalogs w1)
                    (<[".translation-cli.json" := updated]> (config_files w1))
                    (trace w1)).
  assert (Hfiles2 : catalogs w2 = catalogs w) by by destruct found.
  assert (Htrace2 : trace w2 = trace w) by by destruct found.
  rewrite (bind_done _ _ _ w2 tt) by by destruct found.
  assert (Hstored : stored w2 (sourceLanguage cfg) = stored w (sourceLanguage cfg))
    by (unfold stored; by rewrite Hfiles2).
  assert (Hload : loadTranslations (sourceLanguage cfg) w2
                  = (w2, Done (stored w (sourceLanguage cfg)))).
  { rewrite <- Hstored. apply loadTranslations_stored. rewrite Hfiles2.
    intros Hcorrupt. apply Hkeys. unfold reference_keys, stored.
    by rewrite Hcorrupt. }
  rewrite (bind_done _ _ _ _ _ Hload).
  fold (reference_keys w cfg).
  rewrite bool_decide_eq_false_2 by by destruct (reference_keys w cfg).
  cbv zeta in Hbatch. fold (reference_keys w cfg) in Hbatch.
  unfold mbind, M_bind, history, emit. cbn beta iota.
  rewrite Htrace2, Hbatch.
  unfold saveTranslations; simpl.
  eexists; split; [done|]. simpl. apply lookup_insert_eq.
Qed.

Lemma add_language_failed_batch_witness :
  exists w',
    addNewLanguage (io := garbled) "de-de" "German" sample_config true sample_world
    = (w', Done (LanguageResult "de-de" "German" 0 false
                   (Some "Translation failed")))
    /\ catalogs w' !! "de-de" = Some (Json []).
Proof.
  apply (add_language_failed_batch (io := garbled) sample_world sample_config
           "de-de" "German"); by vm_compute.
Defined.

(** ** Reconciliation *)

Lemma set_add_elem s k k' : k' ∈ set_add s k <-> k' ∈ s \/ k' = k.
Proof.
  unfold set_add. case_bool_decide as Hin.
  - split; [by left|]. by intros [?| ->].
  - rewrite elem_of_app, list_elem_of_singleton. done.
Qed.

Lemma fold_set_add_elem ks : forall s k,
  k ∈ fold_left set_add ks s <-> k ∈ s \/ k ∈ ks.
Proof.
  induction ks as [|k0 ks IH]; intros s k; simpl.
  - rewrite elem_of_nil. tauto.
  - rewrite IH, set_add_elem, elem_of_cons. tauto.
Qed.

Lemma fold_set_add_NoDup ks : forall s, NoDup s -> NoDup (fold_left set_add ks s).
Proof.
  induction ks as [|k ks IH]; intros s Hs; simpl; [done|].
  apply IH. unfold set_add. case_bool_decide as Hin; [done|].
  apply NoDup_app. split; [done|]. split.
  - intros x Hx ->%list_elem_of_singleton. done.
  - apply NoDup_singleton.
Qed.

Lemma sort_keys_elem l k : k ∈ sort_keys l <-> k ∈ l.
Proof. unfold sort_keys. by rewrite merge_sort_Permutation. Qed.

Lemma filter_none {A : Type} (P : A -> Prop) `{forall x, Decision (P x)}
    (l : list A) :
  (forall x, x ∈ l -> ~ P x) -> filter P l = [].
Proof.
  induction l as [|x l IH]; intros Hl; [done|].
  rewrite filter_cons_False by (apply Hl; by left).
  apply IH. intros y Hy. apply Hl. by right.
Qed.

(** The union loop reads every configured catalog and keeps all its keys. *)
Lemma all_keys_loop_collects langs : forall acc w w' res,
  all_keys_loop langs acc w = (w', Done res) ->
  w' = w
  /\ (forall k, k ∈ acc -> k ∈ res)
  /\ (forall lang, lang ∈ langs ->
        catalogs w !! lang.1 ≠ Some Corrupt
        /\ forall k, k ∈ Obj.keys (flattenObject (root (stored w lang.1)) "") ->
                     k ∈ res).
Proof.
  induction langs as [|[langCode name] langs IH]; intros acc w w' res Hrun;
    simpl in Hrun.
  - injection Hrun as <- <-. split; [done|]. split; [done|].
    by intros lang ?%elem_of_nil.
  - unfold mbind, M_bind, loadTranslations in Hrun.
    assert (Hfile : catalogs w !! langCode ≠ Some Corrupt).
    { intros Hcorrupt. by rewrite Hcorrupt in Hrun. }
    assert (Hrun' : all_keys_loop langs
                      (fold_left set_add
                         (Obj.keys (flattenObject (root (stored w langCode)) ""))
                         acc) w = (w', Done res)).
    { unfold stored. by destruct (catalogs w !! langCode) as [[tree|]|]. }
    destruct (IH _ _ _ _ Hrun') as (-> & Hacc & Hlangs).
    split; [done|]. split.
    + intros k Hk. apply Hacc, fold_set_add_elem. by left.
    + intros lang [->|Hlang]%elem_of_cons; [|by apply Hlangs].
      split; [done|]. intros k Hk. apply Hacc, fold_set_add_elem. by right.
Qed.

Lemma getExtraKeys_stored w langCode allKeys :
  catalogs w !! langCode ≠ Some Corrupt ->
  getExtraKeys langCode allKeys w =
  (w, Done (filter (fun key => key ∉ allKeys)
              (Obj.keys (flattenObject (root (stored w langCode)) "")))).
Proof.
  intros Hfile. unfold getExtraKeys.
  by rewrite (bind_done _ _ _ _ _ (loadTranslations_stored _ _ Hfile)).
Qed.

Lemma getMissingKeys_stored w langCode allKeys :
  catalogs w !! langCode ≠ Some Corrupt ->
  getMissingKeys langCode allKeys w =
  (w, Done (filter
              (fun key => key ∉ Obj.keys (flattenObject (root (stored w langCode)) ""))
              allKeys)).
Proof.
  intros Hfile. unfold getMissingKeys.
  by rewrite (bind_done _ _ _ _ _ (loadTranslations_stored _ _ Hfile)).
Qed.

(** Relative to a key list that covers every catalog, the loop of
    [verifyTranslations] records missing keys only. *)
Lemma verify_loop_no_extra allKeys langs : forall found hasIssues w w' res,
  (forall lang, lang ∈ langs ->
     catalogs w !! lang.1 ≠ Some Corrupt
     /\ forall k, k ∈ Obj.keys (flattenObject (root (stored w lang.1)) "") ->
                  k ∈ allKeys) ->
  Forall (fun i => issue_kind i = Missing) found ->
  verify_loop langs allKeys found hasIssues w = (w', Done res) ->
  Forall (fun i => issue_kind i = Missing) res.1.
Proof.
  induction langs as [|[langCode name] langs IH];
    intros found hasIssues w w' res Hcover Hfound Hrun; simpl in Hrun.
  - by injection Hrun as _ <-.
  - destruct (Hcover (langCode, name)) as [Hfile Hkeys]; [by left|].
    rewrite (bind_done _ _ _ _ _ (getMissingKeys_stored _ _ allKeys Hfile)) in Hrun.
    rewrite (bind_done _ _ _ _ _ (getExtraKeys_stored _ _ allKeys Hfile)) in Hrun.
    simpl in Hkeys.
    assert (Hextra : filter (fun key => key ∉ allKeys)
                       (Obj.keys (flattenObject (root (stored w langCode)) ""))
                     = []).
    { apply filter_none. intros k Hk Hn. by apply Hn, Hkeys. }
    cbn [fst] in Hrun. rewrite Hextra in Hrun. simpl in Hrun.
    assert (Htail : forall lang, lang ∈ langs ->
              catalogs w !! lang.1 ≠ Some Corrupt
              /\ forall k,
                   k ∈ Obj.keys (flattenObject (root (stored w lang.1)) "") ->
                   k ∈ allKeys).
    { intros lang Hlang. apply Hcover. by right. }
    case_bool_decide; (eapply IH; [exact Htail| |exact Hrun]); [|done].
    apply Forall_app. split; [done|]. by constructor.
Qed.

(** C5: relative to [allKeys], the sorted union of the flattened keys of
    every configured language, [getExtraKeys] returns the empty list for
    every configured language, and no issue that [verifyTranslations]
    reports is of the extra kind. *)
Theorem extra_keys_always_empty (w w0 : world) (cfg : config)
    (allKeys : list string) :
  getAllKeys cfg w = (w0, Done allKeys) ->
  (forall lang, lang ∈ languages cfg ->
     getExtraKeys lang.1 allKeys w = (w, Done []))
  /\ (forall w' report, verifyTranslations cfg w = (w', Done report) ->
        Forall (fun i => issue_kind i = Missing) (issues report)).
Proof.
  intros Hall. pose proof Hall as Hunion.
  unfold getAllKeys, mbind, M_bind in Hunion.
  destruct (all_keys_loop (languages cfg) [] w) as [w1 [union|e]] eqn:Hloop;
    [|done].
  injection Hunion as -> Hsorted.
  apply all_keys_loop_collects in Hloop as (-> & _ & Hlangs).
  assert (Hcover : forall lang, lang ∈ languages cfg ->
            catalogs w !! lang.1 ≠ Some Corrupt
            /\ forall k, k ∈ Obj.keys (flattenObject (root (stored w lang.1)) "") ->
                         k ∈ allKeys).
  { intros lang Hlang. destruct (Hlangs lang Hlang) as [Hfile Hkeys].
    split; [done|]. intros k Hk. subst allKeys. by apply sort_keys_elem, Hkeys. }
  split.
  - intros lang Hlang. destruct (Hcover lang Hlang) as [Hfile Hkeys].
    rewrite getExtraKeys_stored by done.
    f_equal. f_equal. apply filter_none. intros k Hk Hn. by apply Hn, Hkeys.
  - intros w' report Hverify. unfold verifyTranslations in Hverify.
    rewrite (bind_done _ _ _ _ _ Hall) in Hverify.
    case_bool_decide.
    + injection Hverify as _ <-. by constructor.
    + unfold mbind, M_bind in Hverify.
      destruct (verify_loop (languages cfg) allKeys [] false w)
        as [w1 [found|e]] eqn:Hloop; [|done].
      injection Hverify as _ <-. simpl.
      by eapply (verify_loop_no_extra allKeys (languages cfg) [] false w w1).
Qed.

Lemma extra_keys_always_empty_witness :
  (forall lang, lang ∈ languages sample_config ->
     getExtraKeys lang.1 ["button.cancel"; "button.save"] sample_world
     = (sample_world, Done []))
  /\ (forall w' report,
        verifyTranslations sample_config sample_world = (w', Done report) ->
        Forall (fun i => issue_kind i = Missing) (issues report)).
Proof.
  apply (extra_keys_always_empty sample_world sample_world sample_config
           ["button.cancel"; "button.save"]).
  vm_compute. reflexivity.
Defined.

(** ** Usage scan *)

(** The keys collected from the matches of one pattern. *)
Lemma collect_matches_elem ms : forall keys k,
  k ∈ fold_left
        (fun keys key => if negb (dynamic key) then set_add keys key else keys)
        ms keys
  <-> k ∈ keys \/ (k ∈ ms /\ dynamic k = false).
Proof.
  induction ms as [|m ms IH]; intros keys k; simpl.
  - rewrite elem_of_nil. tauto.
  - rewrite IH, elem_of_cons. destruct (dynamic m) eqn:Hm; simpl.
    + split; [tauto|]. intros [?|[[->|?] Hk]]; [tauto|congruence|tauto].
    + rewrite set_add_elem. split; [|tauto].
      intros [[?| ->]|?]; tauto.
Qed.

Lemma collect_matches_NoDup ms : forall keys,
  NoDup keys ->
  NoDup (fold_left
           (fun keys key => if negb (dynamic key) then set_add keys key else keys)
           ms keys).
Proof.
  induction ms as [|m ms IH]; intros keys Hkeys; simpl; [done|].
  apply IH. destruct (negb (dynamic m)); [|done].
  by apply (fold_set_add_NoDup [m]).
Qed.

Lemma collect_patterns_elem content ps : forall keys k,
  k ∈ fold_left
        (fun keys p =>
           fold_left
             (fun keys key => if negb (dynamic key) then set_add keys key else keys)
             (exec_all p None 0 content) keys)
        ps keys
  <-> k ∈ keys
      \/ (dynamic k = false /\ exists p, p ∈ ps /\ k ∈ exec_all p None 0 content).
Proof.
  induction ps as [|p ps IH]; intros keys k; simpl.
  - split; [tauto|]. intros [?|[_ (p & ?%elem_of_nil & _)]]; tauto.
  - rewrite IH, collect_matches_elem. split.
    + intros [[?|[? ?]]|[? (p' & ? & ?)]]; [tauto| |].
      * right. split; [done|]. exists p. split; [by left|done].
      * right. split; [done|]. exists p'. split; [by right|done].
    + intros [?|[? (p' & [->|?]%elem_of_cons & ?)]]; [tauto|tauto|].
      right. split; [done|]. by exists p'.
Qed.

(** The keys of a text are the literals its patterns capture that are not
    built at run time, each once. *)
Lemma extractTranslationKeys_elem content k :
  k ∈ extractTranslationKeys content
  <-> dynamic k = false
      /\ exists p, p ∈ TRANSLATION_PATTERNS /\ k ∈ exec_all p None 0 content.
Proof.
  unfold extractTranslationKeys. rewrite collect_patterns_elem, elem_of_nil.
  tauto.
Qed.

Lemma extractTranslationKeys_NoDup content :
  NoDup (extractTranslationKeys content).
Proof.
  unfold extractTranslationKeys.
  generalize (@NoDup_nil_2 string). generalize (@nil string).
  induction TRANSLATION_PATTERNS as [|p ps IH]; intros keys Hkeys; simpl; [done|].
  by apply IH, collect_matches_NoDup.
Qed.

Lemma includes_first_char s c sub :
  includes s (String c sub) = true -> In c (String.list_ascii_of_string s).
Proof.
  induction s as [|b s IH]; simpl; [done|].
  destruct (Ascii.eqb_spec c b) as [->|Hne]; [by left|].
  intros Hin. right. by apply IH.
Qed.

(** A key that fits the path grammar carries no marker of a key built at
    run time. *)
Lemma valid_key_not_dynamic key : valid_key key = true -> dynamic key = false.
Proof.
  unfold valid_key, all_chars. intros [_ Hchars]%andb_true_iff.
  rewrite forallb_forall in Hchars.
  unfold dynamic.
  destruct (includes key "${") eqn:H1.
  { apply includes_first_char, Hchars in H1. discriminate H1. }
  destruct (includes key "{{") eqn:H2.
  { apply includes_first_char, Hchars in H2. discriminate H2. }
  destruct (includes key "+") eqn:H3; [|done].
  apply includes_first_char, Hchars in H3. discriminate H3.
Qed.

Section ScannerFacts.
Context {io : Collaborators}.

(** What the loop over the files adds to the used keys. *)
Lemma scan_loop_used scanDir files : forall used usage scanned errors r,
  scan_loop scanDir files used usage scanned errors = r ->
  (forall k, k ∈ r.1.1.1 <->
     k ∈ used
     \/ exists f text, f ∈ files /\ content f = Some text
                       /\ k ∈ extractTranslationKeys text)
  /\ (NoDup used -> NoDup r.1.1.1)
  /\ (scanned <= r.1.2)%nat.
Proof.
  induction files as [|f files IH]; intros used usage scanned errors r <-; simpl.
  - split; [|done]. intros k. split; [tauto|].
    intros [?|(f & text & ?%elem_of_nil & _)]; tauto.
  - unfold scanFile. destruct (content f) as [text|] eqn:Hcontent; simpl.
    + edestruct IH as (Hused & Hnodup & Hcount); [reflexivity|].
      split; [|split].
      * intros k. rewrite Hused, fold_set_add_elem. split.
        -- intros [[?|?]|(f' & text' & ? & ? & ?)]; [tauto| |].
           ++ right. exists f, text. split; [by left|done].
           ++ right. exists f', text'. split; [by right|done].
        -- intros [?|(f' & text' & [->|?]%elem_of_cons & Hc & ?)]; [tauto| |].
           ++ rewrite Hcontent in Hc. injection Hc as <-. tauto.
           ++ right. by exists f', text'.
      * intros Hnd. by apply Hnodup, fold_set_add_NoDup.
      * lia.
    + edestruct IH as (Hused & Hnodup & Hcount); [reflexivity|].
      split; [|split; [done|lia]].
      intros k. rewrite Hused. split.
      * intros [?|(f' & text' & ? & ? & ?)]; [tauto|].
        right. exists f', text'. split; [by right|done].
      * intros [?|(f' & text' & [->|?]%elem_of_cons & Hc & ?)]; [tauto| |].
        -- by rewrite Hcontent in Hc.
        -- right. by exists f', text'.
Qed.

(** A scan that ran: its used keys, its unused keys and the reference keys
    it was given. *)
Lemma scan_ran cfg scanDir files w w' r n :
  scanUnusedTranslations cfg scanDir files w = (w', Done r) ->
  scannedFiles r = Some n ->
  usedKeys r = (scan_loop scanDir files [] [] 0 0).1.1.1
  /\ unusedKeys r = filter (fun key => key ∉ usedKeys r) (reference_keys w cfg)
  /\ scan_totalKeys r = length (reference_keys w cfg)
  /\ usageRate r =
     Some (inject_Z (Z.of_nat (length (usedKeys r)))
           / inject_Z (Z.of_nat (scan_totalKeys r)) * inject_Z 100)%Q.
Proof.
  intros Hrun Hran. unfold scanUnusedTranslations in Hrun.
  assert (Hfile : catalogs w !! sourceLanguage cfg ≠ Some Corrupt).
  { intros Hcorrupt. unfold mbind, M_bind, loadTranslations in Hrun.
    by rewrite Hcorrupt in Hrun. }
  rewrite (bind_done _ _ _ _ _ (loadTranslations_stored _ _ Hfile)) in Hrun.
  fold (reference_keys w cfg) in Hrun.
  case_bool_decide; [injection Hrun as _ <-; discriminate Hran|].
  case_bool_decide; [injection Hrun as _ <-; discriminate Hran|].
  destruct (scan_loop scanDir files [] [] 0 0) as [[[used usage] scanned] errors].
  by injection Hrun as _ <-.
Qed.

(** C7: in a scan that ran over a reference catalog whose keys fit the
    path grammar, a key that contains one of the markers [${], [{{] or [+]
    is in neither the used nor the unused keys; every literal without a
    marker that one of the call patterns captures in a scanned text is
    among the used keys; and the used keys hold no key twice. *)
Theorem dynamic_keys_excluded (w w' : world) (cfg : config) (scanDir : string)
    (files : list source_file) (r : scan_result) (n : nat) :
  scanUnusedTranslations cfg scanDir files w = (w', Done r) ->
  scannedFiles r = Some n ->
  forallb valid_key (reference_keys w cfg) = true ->
  (forall k, dynamic k = true -> (k ∉ usedKeys r) /\ (k ∉ unusedKeys r))
  /\ (forall f text p k,
        f ∈ files -> content f = Some text ->
        p ∈ TRANSLATION_PATTERNS -> k ∈ exec_all p None 0 text ->
        dynamic k = false -> k ∈ usedKeys r)
  /\ NoDup (usedKeys r).
Proof.
  intros Hrun Hran Hvalid.
  destruct (scan_ran _ _ _ _ _ _ _ Hrun Hran) as (Hused & Hunused & _ & _).
  destruct (scan_loop_used scanDir files [] [] 0 0 _ eq_refl)
    as (Hin & Hnodup & _).
  rewrite <- Hused in Hin, Hnodup.
  split; [|split].
  - intros k Hdyn. split.
    + intros Hk. apply Hin in Hk as [Hk|(f & text & _ & _ & Hk)].
      * by apply elem_of_nil in Hk.
      * apply extractTranslationKeys_elem in Hk as [Hk _]. congruence.
    + rewrite Hunused. intros [_ Hk]%list_elem_of_filter.
      rewrite forallb_forall in Hvalid.
      apply list_elem_of_In, Hvalid, valid_key_not_dynamic in Hk. congruence.
  - intros f text p k Hf Htext Hp Hk Hstatic. apply Hin. right.
    exists f, text. split; [done|]. split; [done|].
    apply extractTranslationKeys_elem. by eauto.
  - apply Hnodup, NoDup_nil_2.
Qed.

(** C1, as the code has it: the usage rate of a scan that ran is the number
    of used keys over the number of reference keys, as a percentage, where
    the used keys are all the keys found in the scanned texts, members of
    the reference catalog or not. *)
Theorem usage_rate_counts_all_used_keys (w w' : world) (cfg : config)
    (scanDir : string) (files : list source_file) (r : scan_result) (n : nat) :
  scanUnusedTranslations cfg scanDir files w = (w', Done r) ->
  scannedFiles r = Some n ->
  usageRate r =
  Some (inject_Z (Z.of_nat (length (usedKeys r)))
        / inject_Z (Z.of_nat (length (reference_keys w cfg))) * inject_Z 100)%Q
  /\ forall k, k ∈ usedKeys r <->
       exists f text, f ∈ files /\ content f = Some text
                      /\ k ∈ extractTranslationKeys text.
Proof.
  intros Hrun Hran.
  destruct (scan_ran _ _ _ _ _ _ _ Hrun Hran) as (Hused & _ & Htotal & Hrate).
  split; [by rewrite Hrate, Htotal|].
  destruct (scan_loop_used scanDir files [] [] 0 0 _ eq_refl) as (Hin & _ & _).
  rewrite <- Hused in Hin. intros k. rewrite Hin, elem_of_nil. tauto.
Qed.
End ScannerFacts.

Lemma dynamic_keys_excluded_witness :
  (forall k, dynamic k = true ->
     (k ∉ usedKeys sample_scan) /\ (k ∉ unusedKeys sample_scan))
  /\ (forall f text p k,
        f ∈ sample_files -> content f = Some text ->
        p ∈ TRANSLATION_PATTERNS -> k ∈ exec_all p None 0 text ->
        dynamic k = false -> k ∈ usedKeys sample_scan)
  /\ NoDup (usedKeys sample_scan).
Proof.
  apply (dynamic_keys_excluded (io := offline) sample_world sample_world
           sample_config "." sample_files sample_scan 1);
    vm_compute; reflexivity.
Defined.

Lemma usage_rate_counts_all_used_keys_witness :
  usageRate sample_scan =
  Some (inject_Z (Z.of_nat (length (usedKeys sample_scan)))
        / inject_Z (Z.of_nat (length (reference_keys sample_world sample_config)))
        * inject_Z 100)%Q
  /\ forall k, k ∈ usedKeys sample_scan <->
       exists f text, f ∈ sample_files /\ content f = Some text
                      /\ k ∈ extractTranslationKeys text.
Proof.
  apply (usage_rate_counts_all_used_keys (io := offline) sample_world
           sample_world sample_config "." sample_files sample_scan 1);
    vm_compute; reflexivity.
Defined.

(** C1 fails as stated: the text uses [button.save], one of the two
    reference keys, and [phantom.key], which the catalog does not hold; the
    rate returned is 100, not the 50 of the intersection. *)
Lemma usage_rate_counts_phantom_keys_counterexample :
  scanUnusedTranslations (io := offline) sample_config "." sample_files
    sample_world = (sample_world, Done sample_scan)
  /\ reference_keys sample_world sample_config = ["button.save"; "button.cancel"]
  /\ usedKeys sample_scan = ["button.save"; "phantom.key"]
  /\ exists rate,
       usageRate sample_scan = Some rate
       /\ (rate == inject_Z 100)%Q
       /\ (spec_usageRate (reference_keys sample_world sample_config)
             (usedKeys sample_scan) == inject_Z 50)%Q
       /\ ~ (rate == spec_usageRate (reference_keys sample_world sample_config)
                       (usedKeys sample_scan))%Q.
Proof.
  split; [vm_compute; reflexivity|].
  split; [vm_compute; reflexivity|].
  split; [vm_compute; reflexivity|].
  eexists. split; [vm_compute; reflexivity|].
  split; [vm_compute; reflexivity|].
  split; [vm_compute; reflexivity|].
  vm_compute. discriminate.
Qed.

(** ** The embedding on the cases of the test suite *)

Example get_nested_cases :
  let testObject :=
    VObj [("button", VObj [("save", VPrim (PStr "Save"));
                           ("cancel", VPrim (PStr "Cancel"))]);
          ("simple", VPrim (PStr "value"))] in
  getNestedProperty testObject "button.save" = Some (VPrim (PStr "Save"))
  /\ getNestedProperty testObject "simple" = Some (VPrim (PStr "value"))
  /\ getNestedProperty testObject "button.nonexistent" = None
  /\ getNestedProperty testObject "nonexistent.key" = None
  /\ getNestedProperty (VObj []) "any.key" = None.
Proof. repeat split. Qed.

Example set_nested_cases :
  setNestedProperty (VObj []) "form.validation.required" (VPrim (PStr "Required"))
  = (VObj [("form", VObj [("validation",
                            VObj [("required", VPrim (PStr "Required"))])])],
     Normal)
  /\ setNestedProperty (VObj [("button", VObj [("cancel", VPrim (PStr "Cancel"))])])
       "button.save" (VPrim (PStr "Save"))
     = (VObj [("button", VObj [("cancel", VPrim (PStr "Cancel"));
                               ("save", VPrim (PStr "Save"))])], Normal).
Proof. split; reflexivity. Qed.

Example flatten_and_sort_cases :
  flattenObject
    [("form", VObj [("validation", VObj [("required", VPrim (PStr "Required"));
                                         ("email", VPrim (PStr "Invalid email"))])]);
     ("simple", VPrim (PStr "value"))] ""
  = [("form.validation.required", VPrim (PStr "Required"));
     ("form.validation.email", VPrim (PStr "Invalid email"));
     ("simple", VPrim (PStr "value"))]
  /\ sortObjectRecursively
       (VObj [("zebra", VObj [("gamma", VPrim (PStr "g"));
                              ("alpha", VPrim (PStr "a"))]);
              ("alpha", VPrim (PStr "a"))])
     = VObj [("alpha", VPrim (PStr "a"));
             ("zebra", VObj [("alpha", VPrim (PStr "a"));
                             ("gamma", VPrim (PStr "g"))])].
Proof. split; vm_compute; reflexivity. Qed.

Example extract_dynamic_cases :
  extractTranslationKeys
    "t(`dynamic.${variable}.key`)
     t('dynamic.' + variable + '.key')
     t('dynamic.{{variable}}.key')
     t('static.key') {{ $t('button.submit') }} i18n.t(`form.email`)"
  = ["dynamic."; "static.key"; "button.submit"; "form.email"].
Proof. vm_compute. reflexivity. Qed.

Example rename_and_remove_cases :
  (renameTranslationKey "button.save" "button.saveData" sample_config true
     sample_world).2 = Done tt
  /\ stored (renameTranslationKey "button.save" "button.saveData" sample_config
               true sample_world).1 "pt-pt"
     = VObj [("button", VObj [("saveData", VPrim (PStr "Guardar"))])]
  /\ stored (removeTranslationKey "button.save" sample_config sample_world).1
       "en-us"
     = VObj [("button", VObj [("cancel", VPrim (PStr "Cancel"))])]
  /\ stored (removeTranslationKey "button.save" sample_config sample_world).1
       "pt-pt"
     = VObj [].
Proof. repeat split; vm_compute; reflexivity. Qed.

(** * Further properties of the code *)

(** ** Paths that part ways *)

Lemma diverge_sym p : forall q, diverge p q = diverge q p.
Proof.
  induction p as [|a p IH]; intros [|b q]; simpl; try done.
  rewrite (String.eqb_sym b a). destruct (String.eqb a b); [apply IH|done].
Qed.

Lemma get_keys_empty_object keys :
  keys ≠ [] -> get_keys (VObj []) keys = None.
Proof. destruct keys; [done|]. intros _. by rewrite get_keys_cons. Qed.

(** Writing along one path leaves what a path that parts ways with it
    reads, whether the write completes or not. *)
Lemma set_keys_frame keys : forall current lastKey v q,
  diverge (keys ++ [lastKey]) q = true ->
  get_keys (set_keys current keys lastKey v).1 q = get_keys current q.
Proof.
  induction keys as [|key keys IH]; intros current lastKey v [|b q'] Hd;
    try done; (destruct current as [p|o]; [done|]); simpl in *.
  - destruct (String.eqb_spec lastKey b) as [->|Hne]; [done|].
    rewrite !get_keys_cons. by rewrite ObjFacts.get_set_ne by done.
  - destruct (set_keys _ keys lastKey v) as [child' c] eqn:Hset; simpl.
    rewrite !get_keys_cons.
    destruct (String.eqb_spec key b) as [<-|Hne];
      [|by rewrite ObjFacts.get_set_ne by done].
    rewrite ObjFacts.get_set_eq.
    change child' with (child', c).1. rewrite <- Hset, (IH _ _ _ _ Hd).
    destruct (Obj.get o key); [done|].
    apply get_keys_empty_object. destruct q'; [by destruct keys|done].
Qed.

Lemma setNestedProperty_frame T P Q V :
  paths_diverge P Q = true ->
  getNestedProperty (setNestedProperty T P V).1 Q = getNestedProperty T Q.
Proof.
  intros Hd. unfold paths_diverge in Hd. rewrite split_dot_pop in Hd.
  unfold setNestedProperty, pop, getNestedProperty.
  change (removelast (split_dot P)) with (path_keys P).
  change (List.last (split_dot P) EmptyString) with (path_last P).
  by apply set_keys_frame.
Qed.



Lemma get_delete_ne o k k' : k ≠ k' -> Obj.get (Obj.delete o k) k' = Obj.get o k'.
Proof.
  intros Hkk'. induction o as [|[k0 v0] o IH]; simpl; [done|].
  destruct (String.eqb_spec k0 k) as [->|Hne]; simpl.
  - by apply String.eqb_neq in Hkk' as ->.
  - by rewrite IH.
Qed.

Lemma delete_at_frame keys : forall current k q,
  diverge (keys ++ [k]) q = true ->
  get_keys (delete_at current keys k) q = get_keys current q.
Proof.
  induction keys as [|key keys IH]; intros current k [|b q'] Hd;
    try done; (destruct current as [p|o]; [done|]); simpl in *.
  - destruct (String.eqb_spec k b) as [->|Hne]; [done|].
    rewrite !get_keys_cons. by rewrite get_delete_ne by done.
  - destruct (Obj.get o key) as [child|] eqn:Hchild; [|done].
    rewrite !get_keys_cons.
    destruct (String.eqb_spec key b) as [<-|Hne].
    + by rewrite ObjFacts.get_set_eq, Hchild, IH.
    + by rewrite ObjFacts.get_set_ne by done.
Qed.

(** A path that runs through an empty mapping reads [undefined], with the
    mapping in place and without it. *)
Lemma delete_at_through_empty init : forall current k x rest,
  get_keys current (init ++ [k]) = Some (VObj []) ->
  get_keys (delete_at current init k) (init ++ k :: x :: rest) = None
  /\ get_keys current (init ++ k :: x :: rest) = None.
Proof.
  induction init as [|key init IH]; intros current k x rest Hempty;
    cbn [app] in *;
    (destruct current as [p|o]; [by rewrite get_keys_prim in Hempty|]);
    rewrite get_keys_cons in Hempty; simpl.
  - rewrite !get_keys_cons, ObjFacts.get_delete_eq.
    destruct (Obj.get o k) as [child|]; [|done].
    unfold get_keys in Hempty; simpl in Hempty. injection Hempty as ->.
    by rewrite get_keys_cons.
  - destruct (Obj.get o key) as [child|] eqn:Hchild; [|done].
    rewrite !get_keys_cons, ObjFacts.get_set_eq, Hchild.
    by apply IH.
Qed.

Lemma diverge_snoc keys : forall lastKey q,
  diverge (keys ++ [lastKey]) q = true ->
  diverge keys q = true \/ exists x rest, q = keys ++ x :: rest.
Proof.
  induction keys as [|key keys IH]; intros lastKey [|b q'] Hd; try done;
    simpl in *.
  - right. by exists b, q'.
  - destruct (String.eqb_spec key b) as [<-|Hne]; [|by left].
    destruct (IH _ _ Hd) as [?|(x & rest & ->)]; [by left|].
    right. by exists x, rest.
Qed.

Lemma prune_empty_frame tree keys q :
  diverge keys q = true \/ (exists x rest, q = keys ++ x :: rest) ->
  get_keys (prune_empty tree keys) q = get_keys tree q.
Proof.
  intros Hq. unfold prune_empty. destruct keys as [|key keys']; [done|].
  destruct (is_empty_object _) eqn:Hempty; [|done].
  assert (Hsplit : key :: keys' = removelast (key :: keys')
                                  ++ [List.last (key :: keys') EmptyString])
    by by apply app_removelast_last.
  revert Hsplit Hempty Hq.
  generalize (removelast (key :: keys')) (List.last (key :: keys') EmptyString).
  generalize (key :: keys'). clear key keys'.
  intros keys init kl -> Hempty [Hd|(x & rest & ->)].
  - by apply delete_at_frame.
  - destruct (get_keys tree (init ++ [kl])) as [[p|[|kv po]]|] eqn:Hparent;
      try done.
    destruct (delete_at_through_empty _ _ _ x rest Hparent) as [Hafter Hbefore].
    rewrite <- !app_assoc. simpl. by rewrite Hafter, Hbefore.
Qed.

Lemma removeNestedProperty_frame T P Q :
  plain_path P = true ->
  paths_diverge P Q = true ->
  getNestedProperty (removeNestedProperty T P).1 Q = getNestedProperty T Q.
Proof.
  intros Hplain Hd. unfold paths_diverge in Hd. rewrite split_dot_pop in Hd.
  apply plain_path_keys in Hplain.
  unfold removeNestedProperty, pop, getNestedProperty.
  change (removelast (split_dot P)) with (path_keys P).
  change (List.last (split_dot P) EmptyString) with (path_last P).
  destruct (get_keys T (path_keys P)) as [[p|po]|] eqn:Hparent; try done.
  pose proof (get_keys_delete_at _ _ _ [] (path_last P) Hparent) as Hparent1.
  rewrite app_nil_r in Hparent1.
  rewrite (cleanup_prunes_keys _ _ _ Hplain Hparent1). simpl.
  rewrite prune_empty_frame by by apply diverge_snoc in Hd.
  by apply delete_at_frame.
Qed.



(** ** Sorting *)

Lemma get_in_keys o k : is_Some (Obj.get o k) <-> k ∈ Obj.keys o.
Proof.
  induction o as [|[k' v] o IH]; simpl.
  - split; [by intros [? ?]|by intros ?%elem_of_nil].
  - destruct (String.eqb_spec k' k) as [->|Hne].
    + split; [by left|by eauto].
    + rewrite IH, elem_of_cons. split; [by right|].
      by intros [?|?].
Qed.

Lemma get_map_values (g : value -> value) o k :
  Obj.get (map (fun kv => (kv.1, g kv.2)) o) k = g <$> Obj.get o k.
Proof.
  induction o as [|[k' v] o IH]; simpl; [done|].
  by destruct (String.eqb k' k).
Qed.

(** Reading from an object laid out key by key. *)
Lemma get_laid_out (f : string -> value) ks : forall acc k,
  Obj.get (fold_left (fun sorted key => Obj.set sorted key (f key)) ks acc) k =
  if decide (k ∈ ks) then Some (f k) else Obj.get acc k.
Proof.
  induction ks as [|k0 ks IH]; intros acc k; simpl.
  - by destruct (decide (k ∈ [])) as [?%elem_of_nil|].
  - rewrite IH.
    destruct (decide (k ∈ ks)) as [Hin|Hnotin],
             (decide (k ∈ k0 :: ks)) as [Hin'|Hnotin'].
    + done.
    + destruct Hnotin'. by right.
    + apply elem_of_cons in Hin' as [->|?]; [apply ObjFacts.get_set_eq|done].
    + rewrite ObjFacts.get_set_ne; [done|]. intros ->. apply Hnotin'. by left.
Qed.

Lemma sorted_get o k :
  opt_index (Some (sortObjectRecursively (VObj o))) k
  = sortObjectRecursively <$> Obj.get o k.
Proof.
  cbn [sortObjectRecursively opt_index]. rewrite get_laid_out, get_map_values.
  destruct (decide (k ∈ sort_keys (Obj.keys o))) as [Hin|Hnotin].
  - apply sort_keys_elem, get_in_keys in Hin as [v ->]. done.
  - destruct (Obj.get o k) as [v|] eqn:Hget; [|done].
    destruct Hnotin. apply sort_keys_elem, get_in_keys. by eauto.
Qed.

Lemma sorted_get_keys keys : forall v,
  get_keys (sortObjectRecursively v) keys
  = sortObjectRecursively <$> get_keys v keys.
Proof.
  induction keys as [|key keys IH]; intros [p|o]; try done.
  - cbn [sortObjectRecursively]. by rewrite !get_keys_prim.
  - unfold get_keys at 1. cbn [fold_left]. rewrite sorted_get.
    rewrite get_keys_cons.
    destruct (Obj.get o key) as [child|]; simpl; [apply IH|].
    apply fold_opt_index_None.
Qed.


(** ** Loops over the languages *)

Lemma stored_tree_of w L : stored w L = tree_of (catalogs w !! L).
Proof. done. Qed.

(** A loop whose turns touch the language at hand only acts on the file of
    [L] once for each time [L] is listed. *)
Lemma for_each_turns (body : string * string -> M unit) (L : string)
    (step : option file -> option file -> Prop) :
  (forall lang, tagged lang.1 (body lang)) ->
  (forall name w1 w2, body (L, name) w1 = (w2, Done tt) ->
     step (catalogs w1 !! L) (catalogs w2 !! L)) ->
  forall langs w w',
    for_each langs body w = (w', Done tt) ->
    turns step (occurrences L langs) (catalogs w !! L) (catalogs w' !! L).
Proof.
  intros Htagged Hstep.
  induction langs as [|[langCode name] langs IH]; intros w w' Hrun.
  - by injection Hrun as <-.
  - simpl in Hrun. unfold mbind, M_bind in Hrun.
    destruct (body (langCode, name) w) as [w1 [[]|e]] eqn:Hbody; [|done].
    unfold occurrences. simpl.
    destruct (String.eqb_spec langCode L) as [->|Hother]; simpl.
    + exists (catalogs w1 !! L). split; [by eapply Hstep|by apply IH].
    + pose proof (Htagged (langCode, name) w) as [Hfiles _].
      rewrite Hbody in Hfiles. simpl in Hfiles.
      rewrite <- Hfiles by done. by apply IH.
Qed.

(** A language that is not listed keeps its file and sees no event. *)
Lemma for_each_unlisted (body : string * string -> M unit) (L : string) :
  (forall lang, tagged lang.1 (body lang)) ->
  forall langs w,
    L ∉ langs.*1 ->
    catalogs (for_each langs body w).1 !! L = catalogs w !! L
    /\ exists evs, trace (for_each langs body w).1 = trace w ++ evs
                   /\ Forall (fun e => event_lang e ≠ L) evs.
Proof.
  intros Htagged.
  induction langs as [|[langCode name] langs IH]; intros w Hnotin; simpl.
  - split; [done|]. exists []. by rewrite app_nil_r.
  - apply not_elem_of_cons in Hnotin as [Hne Hnotin]. simpl in Hne.
    unfold mbind, M_bind.
    pose proof (Htagged (langCode, name) w) as [Hfiles (evs1 & Htrace1 & Hevs1)].
    simpl in Hfiles.
    assert (Hevs1' : Forall (fun e => event_lang e ≠ L) evs1).
    { eapply Forall_impl; [exact Hevs1|]. simpl. by intros e ->. }
    destruct (body (langCode, name) w) as [w1 [[]|e]]; simpl in *.
    + destruct (IH w1 Hnotin) as [Hfile (evs2 & Htrace2 & Hevs2)].
      split; [by rewrite Hfile, Hfiles|].
      exists (evs1 ++ evs2). split.
      * by rewrite Htrace2, Htrace1, app_assoc.
      * by apply Forall_app.
    + split; [by rewrite Hfiles|]. by eauto.
Qed.

Lemma occurrences_listed L langs :
  L ∈ langs.*1 -> exists n, occurrences L langs = S n.
Proof.
  induction langs as [|[langCode name] langs IH]; simpl.
  - by intros ?%elem_of_nil.
  - unfold occurrences. simpl.
    destruct (String.eqb_spec langCode L) as [->|Hne]; simpl; [by eauto|].
    intros [?|Hin]%elem_of_cons; [done|]. by apply IH.
Qed.

(** Turns that leave a state alone once a condition holds. *)
Lemma turns_settled {A : Type} (step : A -> A -> Prop) (settled : A -> Prop) :
  (forall a b, settled a -> step a b -> b = a) ->
  forall n a b, settled a -> turns step n a b -> b = a.
Proof.
  intros Hstay. induction n as [|n IH]; intros a b Ha; simpl.
  - by intros <-.
  - intros (c & Hstep & Hturns).
    pose proof (Hstay _ _ Ha Hstep) as ->. by apply IH.
Qed.

(** ** Trees stay trees *)

Lemma set_keys_normal_get keys current lastKey v current' :
  set_keys current keys lastKey v = (current', Normal) ->
  get_keys current' (keys ++ [lastKey]) = Some v.
Proof.
  intros Hset.
  destruct (is_leaf (Some current) || leaf_along current keys) eqn:Hleaf.
  - by rewrite (set_keys_blocked _ _ _ _ Hleaf) in Hset.
  - destruct (set_keys_free _ _ lastKey v Hleaf) as (c' & Hset' & Hget).
    rewrite Hset in Hset'. by injection Hset' as <-.
Qed.

Lemma setNestedProperty_normal_get T P V T' :
  setNestedProperty T P V = (T', Normal) -> getNestedProperty T' P = Some V.
Proof.
  unfold setNestedProperty, pop, getNestedProperty. intros Hset.
  rewrite split_dot_pop. by eapply set_keys_normal_get.
Qed.

Lemma set_keys_is_object keys current lastKey v :
  is_object current = true ->
  is_object (set_keys current keys lastKey v).1 = true.
Proof.
  destruct current as [p|o]; [done|]. intros _.
  destruct keys as [|key keys]; simpl; [done|].
  by destruct (set_keys _ keys lastKey v).
Qed.

Lemma cleanup_is_object keys : forall current,
  is_object current = true -> is_object (cleanup current keys).1 = true.
Proof.
  induction keys as [|key keys IH]; intros [p|o] Hobj; try done.
  cbn [cleanup]. destruct (truthy (head keys)); cbn [opt_index].
  - destruct (Obj.get o key) as [c|]; [|done].
    by destruct (cleanup c keys).
  - destruct (Obj.get o key) as [[p|[|kv po]]|]; by apply IH.
Qed.

Lemma removeNestedProperty_is_object T P :
  is_object T = true -> is_object (removeNestedProperty T P).1 = true.
Proof.
  intros Hobj. unfold removeNestedProperty, pop.
  destruct (get_keys T _) as [[p|po]|]; try done.
  apply cleanup_is_object.
  destruct T as [p|o]; [done|].
  by destruct (delete_at_obj o (removelast (split_dot P))
                 (List.last (split_dot P) EmptyString)) as [o' ->].
Qed.

Lemma sort_is_object v :
  is_object v = true -> is_object (sortObjectRecursively v) = true.
Proof. by destruct v. Qed.

Lemma root_object v : is_object v = true -> VObj (root v) = v.
Proof. by destruct v. Qed.

(** On a path of non-empty segments the removal always completes, and the
    path reads [undefined] afterwards. *)
Lemma removeNestedProperty_plain T P :
  plain_path P = true ->
  (removeNestedProperty T P).2 = Normal
  /\ getNestedProperty (removeNestedProperty T P).1 P = None.
Proof.
  intros Hplain. apply plain_path_keys in Hplain.
  assert (Hread : forall X, getNestedProperty X P
                            = get_keys X (path_keys P ++ [path_last P])).
  { intros X. unfold getNestedProperty. by rewrite split_dot_pop. }
  rewrite Hread.
  unfold removeNestedProperty, pop.
  change (removelast (split_dot P)) with (path_keys P).
  change (List.last (split_dot P) EmptyString) with (path_last P).
  destruct (get_keys T (path_keys P)) as [[p|po]|] eqn:Hparent; simpl;
    try by rewrite get_keys_app, Hparent.
  pose proof (get_keys_delete_at _ _ _ [] (path_last P) Hparent) as Hparent1.
  rewrite app_nil_r in Hparent1.
  rewrite (cleanup_prunes_keys _ _ _ Hplain Hparent1). split; [done|].
  cbn [fst]. rewrite prune_empty_frame by (right; by eauto).
  rewrite get_keys_app, Hparent1. simpl. apply ObjFacts.get_delete_eq.
Qed.

(** ** renameTranslationKey and removeTranslationKey, when they succeed *)

Lemma rename_scan_world langs : forall oldKey newKey keyExists newKeyExists w,
  (rename_scan langs oldKey newKey keyExists newKeyExists w).1 = w.
Proof.
  induction langs as [|[langCode name] langs IH]; intros; simpl; [done|].
  unfold mbind, M_bind, loadTranslations.
  destruct (catalogs w !! langCode) as [[tree|]|]; simpl; by rewrite ?IH.
Qed.

Lemma remove_scan_world langs : forall key w, (remove_scan langs key w).1 = w.
Proof.
  induction langs as [|[langCode name] langs IH]; intros; simpl; [done|].
  unfold mbind, M_bind, loadTranslations.
  destruct (catalogs w !! langCode) as [[tree|]|]; simpl; try done;
    by destruct (defined _).
Qed.

Lemma rename_runs_loop oldKey newKey cfg force w w' :
  renameTranslationKey oldKey newKey cfg force w = (w', Done tt) ->
  for_each (languages cfg) (rename_in_language oldKey newKey) w = (w', Done tt).
Proof.
  unfold renameTranslationKey. destruct (negb (valid_key newKey)); [done|].
  unfold mbind at 1, M_bind at 1.
  pose proof (rename_scan_world (languages cfg) oldKey newKey false false w)
    as Hworld.
  destruct (rename_scan _ _ _ _ _ w) as [w1 [flags|e]]; [|done].
  simpl in Hworld. subst w1.
  destruct (negb flags.1); [done|]. by destruct (flags.2 && negb force).
Qed.

Lemma remove_runs_loop key cfg w w' :
  removeTranslationKey key cfg w = (w', Done tt) ->
  for_each (languages cfg) (remove_in_language key) w = (w', Done tt).
Proof.
  unfold removeTranslationKey. unfold mbind at 1, M_bind at 1.
  pose proof (remove_scan_world (languages cfg) key w) as Hworld.
  destruct (remove_scan _ _ w) as [w1 [keyExists|e]]; [|done].
  simpl in Hworld. subst w1. by destruct (negb keyExists).
Qed.

Lemma rename_in_language_tagged oldKey newKey lang :
  tagged lang.1 (rename_in_language oldKey newKey lang).
Proof.
  unfold rename_in_language.
  apply tagged_bind; [apply tagged_load|]. intros translations.
  destruct (getNestedProperty translations oldKey); [|apply tagged_ret].
  apply tagged_bind; [apply tagged_complete|]. intros t1.
  apply tagged_bind; [apply tagged_complete|]. intros t2.
  apply tagged_save.
Qed.

Lemma remove_in_language_tagged key lang :
  tagged lang.1 (remove_in_language key lang).
Proof.
  unfold remove_in_language.
  apply tagged_bind; [apply tagged_load|]. intros translations.
  destruct (getNestedProperty translations key); [|apply tagged_ret].
  apply tagged_bind; [apply tagged_complete|]. intros t.
  apply tagged_save.
Qed.

(** What one turn of the rename loop does to the file of its language. *)
Lemma rename_in_language_step oldKey newKey L name w1 w2 :
  rename_in_language oldKey newKey (L, name) w1 = (w2, Done tt) ->
  rename_turn oldKey newKey (catalogs w1 !! L) (catalogs w2 !! L).
Proof.
  unfold rename_turn, rename_in_language, mbind, M_bind, loadTranslations.
  simpl.
  destruct (catalogs w1 !! L) as [[tree|]|] eqn:Hfile; simpl; try done.
  - destruct (getNestedProperty (VObj tree) oldKey) as [v|]; simpl;
      [|by intros [= <-]].
    destruct (setNestedProperty (VObj tree) newKey v) as [t1 [|e1]]; [|done].
    simpl.
    destruct (removeNestedProperty t1 oldKey) as [t2 [|e2]] eqn:Hrem; [|done].
    simpl. intros [= <-]. exists t1, t2. simpl.
    by rewrite lookup_insert_eq.
  - destruct (getNestedProperty (VObj []) oldKey) as [v|] eqn:Hget;
      [|intros [= <-]; by rewrite Hfile].
    unfold getNestedProperty in Hget.
    by rewrite (get_keys_empty_object _ (split_dot_nonempty oldKey)) in Hget.
Qed.

Lemma paths_diverge_sym P Q : paths_diverge P Q = paths_diverge Q P.
Proof. apply diverge_sym. Qed.

(** A first turn that moves the value, and what the file then holds. *)
Lemma rename_moved oldKey newKey a v t1 t2 :
  plain_path oldKey = true ->
  paths_diverge oldKey newKey = true ->
  is_object a = true ->
  getNestedProperty a oldKey = Some v ->
  setNestedProperty a newKey v = (t1, Normal) ->
  removeNestedProperty t1 oldKey = (t2, Normal) ->
  let b := tree_of (Some (Json (root (sortObjectRecursively t2)))) in
  getNestedProperty b newKey = Some (sortObjectRecursively v)
  /\ getNestedProperty b oldKey = None
  /\ forall Q, paths_diverge oldKey Q = true -> paths_diverge newKey Q = true ->
       getNestedProperty b Q = sortObjectRecursively <$> getNestedProperty a Q.
Proof.
  intros Hplain Hd Ha Hold Hset Hrem. simpl.
  assert (Ht1 : is_object t1 = true).
  { change t1 with (t1, Normal).1. rewrite <- Hset.
    unfold setNestedProperty, pop. by apply set_keys_is_object. }
  assert (Ht2 : is_object t2 = true).
  { change t2 with (t2, Normal).1. rewrite <- Hrem.
    by apply removeNestedProperty_is_object. }
  rewrite root_object by by apply sort_is_object.
  assert (Hread2 : forall Q, paths_diverge oldKey Q = true ->
            getNestedProperty t2 Q = getNestedProperty t1 Q).
  { intros Q HQ. change t2 with (t2, Normal).1. rewrite <- Hrem.
    by apply removeNestedProperty_frame. }
  assert (Hread1 : forall Q, paths_diverge newKey Q = true ->
            getNestedProperty t1 Q = getNestedProperty a Q).
  { intros Q HQ. change t1 with (t1, Normal).1. rewrite <- Hset.
    by apply setNestedProperty_frame. }
  unfold getNestedProperty at 1 2. rewrite !sorted_get_keys.
  fold (getNestedProperty t2 newKey). fold (getNestedProperty t2 oldKey).
  split; [|split].
  - rewrite Hread2 by done.
    by rewrite (setNestedProperty_normal_get _ _ _ _ Hset).
  - destruct (removeNestedProperty_plain t1 oldKey Hplain) as [_ Hgone].
    rewrite Hrem in Hgone. simpl in Hgone. by rewrite Hgone.
  - intros Q HoldQ HnewQ. unfold getNestedProperty at 1.
    rewrite sorted_get_keys. fold (getNestedProperty t2 Q).
    by rewrite Hread2, Hread1.
Qed.



Lemma remove_in_language_step key L name w1 w2 :
  remove_in_language key (L, name) w1 = (w2, Done tt) ->
  remove_turn key (catalogs w1 !! L) (catalogs w2 !! L).
Proof.
  unfold remove_turn, remove_in_language, mbind, M_bind, loadTranslations.
  simpl.
  destruct (catalogs w1 !! L) as [[tree|]|] eqn:Hfile; simpl; try done.
  - destruct (getNestedProperty (VObj tree) key) as [v|]; simpl;
      [|by intros [= <-]].
    destruct (removeNestedProperty (VObj tree) key) as [t [|e]]; [|done].
    simpl. intros [= <-]. exists t. simpl. by rewrite lookup_insert_eq.
  - destruct (getNestedProperty (VObj []) key) as [v|] eqn:Hget;
      [|intros [= <-]; by rewrite Hfile].
    unfold getNestedProperty in Hget.
    by rewrite (get_keys_empty_object _ (split_dot_nonempty key)) in Hget.
Qed.

Lemma remove_done key a t :
  plain_path key = true ->
  is_object a = true ->
  removeNestedProperty a key = (t, Normal) ->
  let b := tree_of (Some (Json (root (sortObjectRecursively t)))) in
  getNestedProperty b key = None
  /\ forall Q, paths_diverge key Q = true ->
       getNestedProperty b Q = sortObjectRecursively <$> getNestedProperty a Q.
Proof.
  intros Hplain Ha Hrem. simpl.
  assert (Ht : is_object t = true).
  { change t with (t, Normal).1. rewrite <- Hrem.
    by apply removeNestedProperty_is_object. }
  rewrite root_object by by apply sort_is_object.
  split.
  - unfold getNestedProperty. rewrite sorted_get_keys.
    fold (getNestedProperty t key).
    destruct (removeNestedProperty_plain a key Hplain) as [_ Hgone].
    rewrite Hrem in Hgone. simpl in Hgone. by rewrite Hgone.
  - intros Q HQ. unfold getNestedProperty at 1. rewrite sorted_get_keys.
    fold (getNestedProperty t Q). change t with (t, Normal).1.
    rewrite <- Hrem. by rewrite removeNestedProperty_frame.
Qed.





(** ** The commands and the languages they are given *)

Lemma tagged_set_all l pairs : forall obj, tagged l (set_all obj pairs).
Proof.
  induction pairs as [|[key v] pairs IH]; intros obj; simpl.
  - apply tagged_ret.
  - apply tagged_bind; [apply tagged_complete|]. intros t. apply IH.
Qed.

Section ListedLanguages.
Context {io : Collaborators}.

Lemma confirm_pairs_tagged langCode translations existingPairs :
  forall newPairs,
    tagged langCode (confirm_pairs langCode translations existingPairs newPairs).
Proof.
  induction existingPairs as [|entry rest IH]; intros newPairs; simpl.
  - apply tagged_ret.
  - apply tagged_bind; [apply tagged_history|]. intros past.
    apply tagged_bind; [apply (tagged_emit (Prompted _ _))|]. intros _.
    apply IH.
Qed.

Lemma batch_to_language_tagged translationPairs cfg force interactive lang :
  tagged lang.1 (batch_to_language translationPairs cfg force interactive lang).
Proof.
  unfold batch_to_language.
  apply tagged_bind; [apply tagged_load|]. intros translations.
  apply tagged_bind.
  { destruct (_ && _ && interactive); [apply confirm_pairs_tagged|].
    destruct (_ && force); apply tagged_ret. }
  intros newPairs. destruct (Nat.eqb _ 0); [apply tagged_ret|].
  apply tagged_bind.
  { unfold texts_for.
    destruct (String.eqb lang.1 (sourceLanguage cfg)); [apply tagged_ret|].
    apply tagged_bind; [apply tagged_history|]. intros past.
    apply tagged_bind; [apply (tagged_emit (BatchTranslated _ _ _ _))|].
    intros _. apply tagged_ret. }
  intros [texts|]; [|apply tagged_ret].
  apply tagged_bind; [apply tagged_set_all|]. intros updated.
  apply tagged_save.
Qed.

(** X7: the four commands that loop over the languages leave a language
    that the configuration does not list alone, whatever their options and
    however they end: its file is what it was, and no translation request,
    prompt or save of the run belongs to it. *)
Theorem commands_touch_listed_languages_only (w : world) (cfg : config)
    (L : string) :
  L ∉ (languages cfg).*1 ->
  let untouched (w' : world) :=
    catalogs w' !! L = catalogs w !! L
    /\ exists evs, trace w' = trace w ++ evs
                   /\ Forall (fun e => event_lang e ≠ L) evs in
  (forall key sourceText force interactive,
     untouched (addTranslation key sourceText cfg force interactive w).1)
  /\ (forall pairs force interactive,
        untouched (batchAddTranslations pairs cfg force interactive w).1)
  /\ (forall oldKey newKey force,
        untouched (renameTranslationKey oldKey newKey cfg force w).1)
  /\ (forall key, untouched (removeTranslationKey key cfg w).1).
Proof.
  intros Hunlisted untouched.
  assert (Hsame : untouched w).
  { split; [done|]. exists []. by rewrite app_nil_r. }
  split; [|split; [|split]].
  - intros. apply for_each_unlisted; [|done].
    intros lang. apply add_to_language_tagged.
  - intros. apply for_each_unlisted; [|done].
    intros lang. apply batch_to_language_tagged.
  - intros. unfold renameTranslationKey.
    destruct (negb (valid_key newKey)); [done|].
    unfold mbind at 1, M_bind at 1.
    pose proof (rename_scan_world (languages cfg) oldKey newKey false false w)
      as Hworld.
    destruct (rename_scan _ _ _ _ _ w) as [w1 [flags|e]]; simpl in Hworld;
      subst w1; [|done].
    destruct (negb flags.1); [done|].
    destruct (flags.2 && negb force); [done|].
    apply (for_each_unlisted (rename_in_language oldKey newKey)); [|done].
    intros lang. apply rename_in_language_tagged.
  - intros. unfold removeTranslationKey. unfold mbind at 1, M_bind at 1.
    pose proof (remove_scan_world (languages cfg) key w) as Hworld.
    destruct (remove_scan _ _ w) as [w1 [keyExists|e]]; simpl in Hworld;
      subst w1; [|done].
    destruct (negb keyExists); [done|].
    apply (for_each_unlisted (remove_in_language key)); [|done].
    intros lang. apply remove_in_language_tagged.
Qed.
End ListedLanguages.

Lemma commands_touch_listed_languages_only_witness :
  let untouched (w' : world) :=
    catalogs w' !! "de-de" = catalogs sample_world !! "de-de"
    /\ exists evs, trace w' = trace sample_world ++ evs
                   /\ Forall (fun e => event_lang e ≠ "de-de") evs in
  (forall key sourceText force interactive,
     untouched (addTranslation (io := offline) key sourceText sample_config
                  force interactive sample_world).1)
  /\ (forall pairs force interactive,
        untouched (batchAddTranslations (io := offline) pairs sample_config
                     force interactive sample_world).1)
  /\ (forall oldKey newKey force,
        untouched (renameTranslationKey oldKey newKey sample_config force
                     sample_world).1)
  /\ (forall key, untouched (removeTranslationKey key sample_config sample_world).1).
Proof.
  apply (commands_touch_listed_languages_only (io := offline) sample_world
           sample_config "de-de").
  by apply (bool_decide_unpack _).
Defined.

(** ** Adding without force *)

Lemma diverge_false p : forall q,
  diverge p q = false ->
  (exists r, q = p ++ r) \/ (exists x r, p = q ++ x :: r).
Proof.
  induction p as [|a p IH]; intros [|b q] Hd; simpl in *.
  - left. by exists [].
  - left. by eexists.
  - right. by eexists _, _.
  - destruct (String.eqb_spec a b) as [->|Hne]; [|done].
    destruct (IH q Hd) as [[r ->]|(x & r & ->)].
    + left. by exists r.
    + right. by exists x, r.
Qed.

(** A walk that meets a leaf stops there and changes nothing. *)
Lemma set_keys_leaf_prefix q : forall current rest lastKey v p,
  get_keys current q = Some (VPrim p) ->
  set_keys current (q ++ rest) lastKey v = (current, Abrupt TypeError).
Proof.
  induction q as [|a q IH]; intros current rest lastKey v p Hleaf.
  - unfold get_keys in Hleaf; simpl in Hleaf. injection Hleaf as ->.
    apply set_keys_prim.
  - destruct current as [p0|o]; [by rewrite get_keys_prim in Hleaf|].
    rewrite get_keys_cons in Hleaf. simpl.
    destruct (Obj.get o a) as [child|] eqn:Hchild; [|done].
    rewrite (IH child rest lastKey v p Hleaf).
    by rewrite ObjFacts.set_get_id.
Qed.

(** Setting a path that is not a prefix of the path of a leaf keeps the
    leaf, whether the write completes or stops. *)
Lemma setNestedProperty_keeps_leaf T P Q V p :
  getNestedProperty T Q = Some (VPrim p) ->
  (forall r, split_dot Q ≠ split_dot P ++ r) ->
  getNestedProperty (setNestedProperty T P V).1 Q = Some (VPrim p).
Proof.
  intros Hleaf Hprefix.
  destruct (paths_diverge P Q) eqn:Hd.
  { by rewrite setNestedProperty_frame. }
  apply diverge_false in Hd as [[r Hr]|(x & r & Hr)]; [by destruct (Hprefix r)|].
  unfold setNestedProperty, pop. rewrite Hr.
  rewrite removelast_app by done.
  by erewrite set_keys_leaf_prefix.
Qed.

(** A key that a tree does not resolve is no prefix of a path it
    resolves. *)
Lemma unresolved_no_prefix T P Q x :
  getNestedProperty T P = None ->
  getNestedProperty T Q = Some x ->
  forall r, split_dot Q ≠ split_dot P ++ r.
Proof.
  unfold getNestedProperty. intros HP HQ r Hr.
  rewrite Hr, get_keys_app, HP, fold_opt_index_None in HQ. done.
Qed.

Lemma for_each_preserves {A : Type} (body : A -> M unit) (I : world -> Prop) :
  (forall x w, I w -> I (body x w).1) ->
  forall l w, I w -> I (for_each l body w).1.
Proof.
  intros Hbody. induction l as [|x l IH]; intros w Hw; simpl; [done|].
  unfold mbind, M_bind. specialize (Hbody x w Hw).
  destruct (body x w) as [w1 [[]|e]]; simpl in *; [by apply IH|done].
Qed.

Lemma stored_saved w langCode t :
  is_object t = true ->
  stored (saveTranslations langCode t w).1 langCode = t.
Proof.
  intros Ht. unfold stored, saveTranslations. simpl.
  rewrite lookup_insert_eq. by apply root_object.
Qed.

Lemma stored_object w L : is_object (stored w L) = true.
Proof. unfold stored. by destruct (catalogs w !! L) as [[|]|]. Qed.

Lemma setNestedProperty_is_object T P V :
  is_object T = true -> is_object (setNestedProperty T P V).1 = true.
Proof. unfold setNestedProperty, pop. apply set_keys_is_object. Qed.

Section Unforced.
Context {io : Collaborators}.

Lemma text_for_reads langCode languageName sourceText cfg w :
  exists r, (text_for langCode languageName sourceText cfg w).2 = Done r
  /\ catalogs (text_for langCode languageName sourceText cfg w).1 = catalogs w.
Proof.
  unfold text_for. destruct (String.eqb langCode (sourceLanguage cfg));
    by eexists.
Qed.

Lemma add_to_language_keeps_leaf key sourceText cfg lang L Q p w :
  getNestedProperty (stored w L) Q = Some (VPrim p) ->
  getNestedProperty
    (stored (add_to_language key sourceText cfg false false lang w).1 L) Q
  = Some (VPrim p).
Proof.
  intros Hleaf.
  destruct (decide (lang.1 = L)) as [<-|Hother].
  2: { pose proof (add_to_language_tagged key sourceText cfg false false lang w)
         as [Hfiles _].
       unfold stored in *. by rewrite Hfiles. }
  unfold add_to_language.
  assert (Hcases : catalogs w !! lang.1 = Some Corrupt
                   \/ catalogs w !! lang.1 ≠ Some Corrupt)
    by (destruct (catalogs w !! lang.1) as [[|]|]; by eauto).
  destruct Hcases as [Hcorrupt|Hfile].
  { unfold mbind, M_bind, loadTranslations. by rewrite Hcorrupt. }
  rewrite (bind_done _ _ _ _ _ (loadTranslations_stored _ _ Hfile)).
  unfold should_write. simpl.
  destruct (translationExists (stored w lang.1) key) eqn:Hexists; simpl;
    [done|].
  unfold mbind, M_bind. simpl.
  destruct (text_for_reads lang.1 lang.2 sourceText cfg w) as (r & Hr & Hfiles).
  destruct (text_for lang.1 lang.2 sourceText cfg w) as [w1 r1].
  simpl in Hr, Hfiles. subst r1.
  assert (Hstored : stored w1 lang.1 = stored w lang.1)
    by (unfold stored; by rewrite Hfiles).
  destruct r as [text|]; simpl; [|by rewrite Hstored].
  pose proof (setNestedProperty_keeps_leaf (stored w lang.1) key Q
                (VPrim (PStr text)) p Hleaf) as Hkept.
  pose proof (setNestedProperty_is_object (stored w lang.1) key
                (VPrim (PStr text)) (stored_object _ _)) as Hobj.
  destruct (setNestedProperty (stored w lang.1) key (VPrim (PStr text)))
    as [t [|e]]; simpl in *; [|by rewrite Hstored].
  change (World _ _ _)
    with (saveTranslations lang.1 (sortObjectRecursively t) w1).1.
  rewrite stored_saved by by apply sort_is_object.
  unfold getNestedProperty. rewrite sorted_get_keys.
  fold (getNestedProperty t Q). rewrite Hkept; [done|].
  eapply unresolved_no_prefix; [|exact Hleaf].
  unfold translationExists in Hexists.
  by destruct (getNestedProperty (stored w lang.1) key).
Qed.

End Unforced.


Lemma set_all_world pairs : forall obj w, (set_all obj pairs w).1 = w.
Proof.
  induction pairs as [|[key v] pairs IH]; intros obj w; simpl; [done|].
  unfold mbind, M_bind.
  destruct (setNestedProperty obj key v) as [t [|e]]; simpl; [apply IH|done].
Qed.

Lemma set_all_keeps_leaf Q p pairs : forall obj w t,
  getNestedProperty obj Q = Some (VPrim p) ->
  is_object obj = true ->
  Forall (fun kv => forall r, split_dot Q ≠ split_dot kv.1 ++ r) pairs ->
  (set_all obj pairs w).2 = Done t ->
  getNestedProperty t Q = Some (VPrim p) /\ is_object t = true.
Proof.
  induction pairs as [|[key v] pairs IH]; intros obj w t Hleaf Hobj Hkeys Hrun;
    simpl in Hrun.
  - by injection Hrun as <-.
  - apply Forall_cons in Hkeys as [Hkey Hkeys]. simpl in Hkey.
    unfold mbind, M_bind in Hrun.
    pose proof (setNestedProperty_keeps_leaf obj key Q v p Hleaf Hkey) as Hkept.
    pose proof (setNestedProperty_is_object obj key v Hobj) as Hobj1.
    destruct (setNestedProperty obj key v) as [t1 [|e]]; simpl in *; [|done].
    by eapply IH.
Qed.

Section UnforcedBatch.
Context {io : Collaborators}.

Lemma texts_for_reads langCode languageName cfg newPairs w :
  exists r, (texts_for langCode languageName cfg newPairs w).2 = Done r
  /\ catalogs (texts_for langCode languageName cfg newPairs w).1 = catalogs w.
Proof.
  unfold texts_for. destruct (String.eqb langCode (sourceLanguage cfg));
    by eexists.
Qed.

Lemma batch_to_language_keeps_leaf pairs cfg lang L Q p w :
  getNestedProperty (stored w L) Q = Some (VPrim p) ->
  getNestedProperty
    (stored (batch_to_language pairs cfg false false lang w).1 L) Q
  = Some (VPrim p).
Proof.
  intros Hleaf.
  destruct (decide (lang.1 = L)) as [<-|Hother].
  2: { pose proof (batch_to_language_tagged pairs cfg false false lang w)
         as [Hfiles _].
       unfold stored in *. by rewrite Hfiles. }
  unfold batch_to_language.
  assert (Hcases : catalogs w !! lang.1 = Some Corrupt
                   \/ catalogs w !! lang.1 ≠ Some Corrupt)
    by (destruct (catalogs w !! lang.1) as [[|]|]; by eauto).
  destruct Hcases as [Hcorrupt|Hfile].
  { unfold mbind, M_bind, loadTranslations. by rewrite Hcorrupt. }
  rewrite (bind_done _ _ _ _ _ (loadTranslations_stored _ _ Hfile)).
  rewrite !andb_false_r. cbn [andb].
  set (newPairs := List.filter _ pairs).
  unfold mbind, M_bind. simpl.
  destruct (Nat.eqb (length newPairs) 0); [done|].
  destruct (texts_for_reads lang.1 lang.2 cfg newPairs w) as (r & Hr & Hfiles).
  destruct (texts_for lang.1 lang.2 cfg newPairs w) as [w1 r1].
  simpl in Hr, Hfiles. subst r1.
  assert (Hstored : stored w1 lang.1 = stored w lang.1)
    by (unfold stored; by rewrite Hfiles).
  destruct r as [texts|]; simpl; [|by rewrite Hstored].
  set (writes := combine (map fst newPairs) _).
  pose proof (set_all_world writes (stored w lang.1) w1) as Hworld.
  pose proof (set_all_keeps_leaf Q p writes (stored w lang.1) w1) as Hkept.
  destruct (set_all (stored w lang.1) writes w1) as [w2 [t|e]];
    simpl in Hworld; subst w2; simpl; [|by rewrite Hstored].
  destruct (Hkept t Hleaf (stored_object _ _)) as [Hread Hobj]; [|done|].
  { apply Forall_forall. intros [key v] Hin.
    apply list_elem_of_In, in_combine_l, in_map_iff in Hin
      as ([key' text] & <- & Hin).
    apply filter_In in Hin as [_ Hnew]. simpl in *.
    eapply unresolved_no_prefix; [|exact Hleaf].
    unfold translationExists in Hnew.
    by destruct (getNestedProperty (stored w lang.1) key'). }
  change (World _ _ _)
    with (saveTranslations lang.1 (sortObjectRecursively t) w1).1.
  rewrite stored_saved by by apply sort_is_object.
  unfold getNestedProperty. rewrite sorted_get_keys.
  fold (getNestedProperty t Q). by rewrite Hread.
Qed.

End UnforcedBatch.


(** ** Reconciliation, in full *)

Lemma all_keys_loop_elem langs : forall acc w w' res,
  all_keys_loop langs acc w = (w', Done res) ->
  w' = w
  /\ (NoDup acc -> NoDup res)
  /\ forall k, k ∈ res
       <-> k ∈ acc \/ exists lang, lang ∈ langs /\ k ∈ catalog_keys w lang.1.
Proof.
  induction langs as [|[langCode name] langs IH]; intros acc w w' res Hrun;
    simpl in Hrun.
  - injection Hrun as <- <-. split; [done|]. split; [done|].
    intros k. split; [by left|]. intros [?|(lang & []%elem_of_nil & _)]. done.
  - unfold mbind, M_bind, loadTranslations in Hrun.
    assert (Hrun' : all_keys_loop langs
                      (fold_left set_add (catalog_keys w langCode) acc) w
                    = (w', Done res)).
    { unfold catalog_keys, stored.
      by destruct (catalogs w !! langCode) as [[tree|]|]. }
    destruct (IH _ _ _ _ Hrun') as (-> & Hnodup & Helem).
    split; [done|]. split.
    + intros Hacc. by apply Hnodup, fold_set_add_NoDup.
    + intros k. rewrite Helem, fold_set_add_elem. split.
      * intros [[?|Hk]|(lang & Hlang & Hk)]; [by left| |].
        -- right. exists (langCode, name). split; [by left|done].
        -- right. exists lang. split; [by right|done].
      * intros [?|(lang & [->|Hlang]%elem_of_cons & Hk)].
        -- by left; left.
        -- by left; right.
        -- right. by exists lang.
Qed.

Lemma getAllKeys_readable cfg w w' allKeys :
  getAllKeys cfg w = (w', Done allKeys) ->
  forall lang, lang ∈ languages cfg -> catalogs w !! lang.1 ≠ Some Corrupt.
Proof.
  intros Hall lang Hlang. unfold getAllKeys, mbind, M_bind in Hall.
  destruct (all_keys_loop (languages cfg) [] w) as [w1 [union|e]] eqn:Hloop;
    [|done].
  by destruct (all_keys_loop_collects _ _ _ _ _ Hloop) as (_ & _ & Hlangs),
    (Hlangs lang Hlang).
Qed.

(** X10: when [getAllKeys] returns, it has read and not written, its list
    has no key twice, and a key is in the list exactly when it is a
    flattened key of the catalog of some configured language. *)
Theorem all_keys_is_the_union (w w' : world) (cfg : config)
    (allKeys : list string) :
  getAllKeys cfg w = (w', Done allKeys) ->
  w' = w
  /\ NoDup allKeys
  /\ forall k, k ∈ allKeys
       <-> exists lang, lang ∈ languages cfg /\ k ∈ catalog_keys w lang.1.
Proof.
  intros Hall. unfold getAllKeys, mbind, M_bind in Hall.
  destruct (all_keys_loop (languages cfg) [] w) as [w1 [union|e]] eqn:Hloop;
    [|done].
  injection Hall as -> <-.
  apply all_keys_loop_elem in Hloop as (-> & Hnodup & Helem).
  split; [done|]. split.
  - unfold sort_keys. rewrite merge_sort_Permutation. apply Hnodup, NoDup_nil_2.
  - intros k. rewrite sort_keys_elem, Helem. split; [|by right].
    by intros [[]%elem_of_nil|?].
Qed.

Lemma all_keys_is_the_union_witness :
  sample_world = sample_world
  /\ NoDup ["button.cancel"; "button.save"]
  /\ forall k, k ∈ ["button.cancel"; "button.save"]
       <-> exists lang, lang ∈ languages sample_config
                        /\ k ∈ catalog_keys sample_world lang.1.
Proof.
  apply (all_keys_is_the_union sample_world sample_world sample_config).
  vm_compute. reflexivity.
Defined.

Lemma filter_nonempty {A : Type} (P : A -> Prop) `{forall x, Decision (P x)}
    (l : list A) :
  0 < length (filter P l) <-> exists x, x ∈ l /\ P x.
Proof.
  split.
  - destruct (filter P l) as [|x l'] eqn:Hf; simpl; [lia|]. intros _.
    assert (Hin : x ∈ filter P l) by (rewrite Hf; by left).
    apply list_elem_of_filter in Hin as [HP Hx]. by exists x.
  - intros (x & Hx & HP).
    assert (Hin : x ∈ filter P l) by by apply list_elem_of_filter.
    destruct (filter P l); [by apply elem_of_nil in Hin|simpl; lia].
Qed.

(** The flag of the loop of [verifyTranslations] is raised exactly by a
    language that lacks a key of the list. *)
Lemma verify_loop_flag allKeys langs : forall found hasIssues w w' res,
  verify_loop langs allKeys found hasIssues w = (w', Done res) ->
  w' = w
  /\ (res.2 = true
      <-> hasIssues = true
          \/ exists lang k, lang ∈ langs /\ k ∈ allKeys
                            /\ k ∉ catalog_keys w lang.1).
Proof.
  induction langs as [|[langCode name] langs IH];
    intros found hasIssues w w' res Hrun; simpl in Hrun.
  - injection Hrun as <- <-. split; [done|]. simpl.
    split; [by left|]. intros [?|(lang & k & []%elem_of_nil & _)]. done.
  - assert (Hfile : catalogs w !! langCode ≠ Some Corrupt).
    { intros Hcorrupt. unfold getMissingKeys, mbind, M_bind, loadTranslations
        in Hrun. by rewrite Hcorrupt in Hrun. }
    rewrite (bind_done _ _ _ _ _ (getMissingKeys_stored _ _ allKeys Hfile)),
      (bind_done _ _ _ _ _ (getExtraKeys_stored _ _ allKeys Hfile)) in Hrun.
    fold (catalog_keys w langCode) in Hrun.
    pose proof (filter_nonempty (fun key => key ∉ catalog_keys w langCode)
                  allKeys) as Hmissing.
    case_bool_decide as Hsome;
      apply IH in Hrun as (-> & Hflag); (split; [done|]); rewrite Hflag.
    + split; [|by intros _; left]. intros _. right.
      apply Hmissing in Hsome as (k & Hk & Hlacks).
      exists (langCode, name), k. split; [by left|done].
    + split.
      * intros [?|(lang & k & Hlang & Hk & Hlacks)]; [by left|].
        right. exists lang, k. split; [by right|done].
      * intros [?|(lang & k & [->|Hlang]%elem_of_cons & Hk & Hlacks)];
          [by left| |right; by exists lang, k].
        exfalso. apply Hsome, Hmissing. by exists k.
Qed.

(** X11: when [verifyTranslations] returns a report, it has read and not
    written, and the report is valid exactly when the configured languages
    all have the same flattened keys: every key of one is a key of every
    other. *)
Theorem valid_iff_same_keys (w w' : world) (cfg : config)
    (report : verification) :
  verifyTranslations cfg w = (w', Done report) ->
  w' = w
  /\ (isValid report = true
      <-> forall a b k, a ∈ languages cfg -> b ∈ languages cfg ->
            k ∈ catalog_keys w a.1 -> k ∈ catalog_keys w b.1).
Proof.
  intros Hverify. unfold verifyTranslations in Hverify.
  destruct (getAllKeys cfg w) as [w1 [allKeys|e]] eqn:Hall;
    [|by unfold mbind, M_bind in Hverify; rewrite Hall in Hverify].
  rewrite (bind_done _ _ _ _ _ Hall) in Hverify.
  unfold getAllKeys, mbind, M_bind in Hall.
  destruct (all_keys_loop (languages cfg) [] w) as [w2 [union|e]] eqn:Hloop;
    [|done].
  injection Hall as -> <-.
  apply all_keys_loop_elem in Hloop as (-> & _ & Helem).
  assert (Hunion : forall k, k ∈ sort_keys union
            <-> exists lang, lang ∈ languages cfg /\ k ∈ catalog_keys w lang.1).
  { intros k. rewrite sort_keys_elem, Helem. split; [|by right].
    by intros [[]%elem_of_nil|?]. }
  case_bool_decide as Hempty.
  - injection Hverify as <- <-. split; [done|]. simpl. split; [|done].
    intros _ a b k Ha Hb Hk.
    assert (Hin : k ∈ sort_keys union) by (apply Hunion; by exists a).
    destruct (sort_keys union); [by apply elem_of_nil in Hin|done].
  - unfold mbind, M_bind in Hverify.
    destruct (verify_loop (languages cfg) (sort_keys union) [] false w)
      as [w1 [found|e]] eqn:Hloop; [|done].
    injection Hverify as <- <-. simpl.
    apply verify_loop_flag in Hloop as (-> & Hflag). split; [done|].
    rewrite negb_true_iff, <- not_true_iff_false, Hflag. split.
    + intros Hnone a b k Ha Hb Hk.
      destruct (decide (k ∈ catalog_keys w b.1)) as [|Hlacks]; [done|].
      exfalso. apply Hnone. right. exists b, k. split; [done|].
      split; [|done]. apply Hunion. by exists a.
    + intros Hsame [?|(lang & k & Hlang & Hk & Hlacks)]; [done|].
      apply Hunion in Hk as (a & Ha & Hk). by apply Hlacks, (Hsame a lang).
Qed.

Lemma valid_iff_same_keys_witness :
  exists report,
    verifyTranslations sample_config sample_world = (sample_world, Done report)
    /\ sample_world = sample_world
    /\ (isValid report = true
        <-> forall a b k, a ∈ languages sample_config ->
              b ∈ languages sample_config ->
              k ∈ catalog_keys sample_world a.1 ->
              k ∈ catalog_keys sample_world b.1).
Proof.
  eexists. split; [vm_compute; reflexivity|].
  apply (valid_iff_same_keys sample_world sample_world sample_config).
  vm_compute. reflexivity.
Defined.

(** ** The source text of addTranslation *)

(** A loop over the languages reaches a goal about the language [L] when
    the turns of [L] reach it from the start condition and keep it, and the
    other turns keep both. *)
Lemma for_each_reaches (body : string * string -> M unit) (L : string)
    (start goal : world -> Prop) :
  (forall lang w w', lang.1 ≠ L -> body lang w = (w', Done tt) ->
     (start w -> start w') /\ (goal w -> goal w')) ->
  (forall lang w w', lang.1 = L -> body lang w = (w', Done tt) ->
     start w \/ goal w -> goal w') ->
  forall langs w w',
    for_each langs body w = (w', Done tt) ->
    (goal w -> goal w') /\ (L ∈ langs.*1 -> start w -> goal w').
Proof.
  intros Hother Hturn.
  induction langs as [|lang langs IH]; intros w w' Hrun; simpl in Hrun.
  - injection Hrun as <-. split; [done|]. by intros ?%elem_of_nil.
  - unfold mbind, M_bind in Hrun.
    destruct (body lang w) as [w1 [[]|e]] eqn:Hbody; [|done].
    destruct (IH _ _ Hrun) as [Hkeep Hreach].
    destruct (decide (lang.1 = L)) as [Hsame|Hne].
    + split.
      * intros Hgoal. apply Hkeep. eapply Hturn; [done..|by right].
      * intros _ Hstart. apply Hkeep. eapply Hturn; [done..|by left].
    + destruct (Hother _ _ _ Hne Hbody) as [Hstart1 Hgoal1]. split.
      * intros Hgoal. by apply Hkeep, Hgoal1.
      * intros [?|Hin]%elem_of_cons Hstart; [done|].
        by apply Hreach, Hstart1.
Qed.

Section SourceText.
Context {io : Collaborators}.

(** Once a turn for the source language decides to write, it stores the
    source text itself. *)
Lemma add_source_write key sourceText cfg name translations w1 w' :
  is_object translations = true ->
  (translatedText ← text_for (sourceLanguage cfg) name sourceText cfg;
   match translatedText with
   | None => mret tt
   | Some text =>
       updatedTranslations ←
         complete (setNestedProperty translations key (VPrim (PStr text)));
       saveTranslations (sourceLanguage cfg)
         (sortObjectRecursively updatedTranslations)
   end) w1 = (w', Done tt) ->
  getNestedProperty (stored w' (sourceLanguage cfg)) key
  = Some (VPrim (PStr sourceText)).
Proof.
  intros Hobj Hrun. unfold text_for in Hrun.
  rewrite String.eqb_refl in Hrun.
  unfold mbind, M_bind, mret, M_ret, complete in Hrun. simpl in Hrun.
  pose proof (setNestedProperty_normal_get translations key
                (VPrim (PStr sourceText))) as Hget.
  pose proof (setNestedProperty_is_object translations key
                (VPrim (PStr sourceText)) Hobj) as Hobj1.
  destruct (setNestedProperty translations key (VPrim (PStr sourceText)))
    as [t [|e]]; simpl in *; [|done].
  injection Hrun as <-.
  change (World _ _ _)
    with (saveTranslations (sourceLanguage cfg) (sortObjectRecursively t) w1).1.
  rewrite stored_saved by by apply sort_is_object.
  unfold getNestedProperty. rewrite sorted_get_keys.
  fold (getNestedProperty t key). by rewrite (Hget t eq_refl).
Qed.

Lemma add_source_turn key sourceText cfg force interactive name w w' :
  add_to_language key sourceText cfg force interactive
    (sourceLanguage cfg, name) w = (w', Done tt) ->
  (force = true \/ translationExists (stored w (sourceLanguage cfg)) key = false)
  \/ getNestedProperty (stored w (sourceLanguage cfg)) key
     = Some (VPrim (PStr sourceText)) ->
  getNestedProperty (stored w' (sourceLanguage cfg)) key
  = Some (VPrim (PStr sourceText)).
Proof.
  intros Hrun Hpre. unfold add_to_language in Hrun. cbn [fst snd] in Hrun.
  assert (Hfile : catalogs w !! sourceLanguage cfg ≠ Some Corrupt).
  { intros Hcorrupt. unfold mbind, M_bind, loadTranslations in Hrun.
    by rewrite Hcorrupt in Hrun. }
  rewrite (bind_done _ _ _ _ _ (loadTranslations_stored _ _ Hfile)) in Hrun.
  pose proof (stored_object w (sourceLanguage cfg)) as Hobj.
  unfold should_write in Hrun.
  destruct (translationExists (stored w (sourceLanguage cfg)) key) eqn:Hexists.
  - destruct force; simpl in Hrun.
    + by apply (add_source_write _ _ _ _ _ _ _ Hobj Hrun).
    + assert (Hheld : getNestedProperty (stored w (sourceLanguage cfg)) key
                      = Some (VPrim (PStr sourceText)))
        by (by destruct Hpre as [[|]|]).
      destruct interactive; simpl in Hrun.
      * unfold mbind at 1, M_bind at 1, mbind at 1, M_bind at 1, history in Hrun.
        unfold mbind at 1, M_bind at 1, emit in Hrun. cbn beta iota in Hrun.
        destruct (confirmReplacement _ _ _ _).
        -- by apply (add_source_write _ _ _ _ _ _ _ Hobj Hrun).
        -- by injection Hrun as <-.
      * by injection Hrun as <-.
  - rewrite (bind_done _ _ _ w true eq_refl) in Hrun.
    by apply (add_source_write _ _ _ _ _ _ _ Hobj Hrun).
Qed.

End SourceText.


(** ** addNewLanguage, when it completes *)

Lemma language_name_set langs langCode languageName :
  language_name (set_language langs langCode languageName) langCode
  = Some languageName.
Proof.
  induction langs as [|[code name] langs IH]; simpl.
  - by rewrite String.eqb_refl.
  - destruct (String.eqb code langCode) eqn:Hcode; simpl; by rewrite Hcode.
Qed.

Lemma language_name_set_other langs langCode languageName other :
  other ≠ langCode ->
  language_name (set_language langs langCode languageName) other
  = language_name langs other.
Proof.
  intros Hne. induction langs as [|[code name] langs IH]; simpl.
  - by rewrite (proj2 (String.eqb_neq _ _)) by done.
  - destruct (String.eqb_spec code langCode) as [->|Hcode]; simpl.
    + by rewrite !(proj2 (String.eqb_neq _ _)) by done.
    + by rewrite IH.
Qed.

Lemma update_config_found configFiles updated : forall w w1 found,
  update_config configFiles updated w = (w1, Done found) ->
  catalogs w1 = catalogs w /\ trace w1 = trace w
  /\ if found
     then exists f, f ∈ configFiles /\ config_files w1 !! f = Some updated
     else w1 = w.
Proof.
  induction configFiles as [|configFile rest IH]; intros w w1 found Hrun;
    simpl in Hrun.
  - by injection Hrun as <- <-.
  - unfold mbind, M_bind, access in Hrun; simpl in Hrun.
    destruct (bool_decide _).
    + injection Hrun as <- <-. simpl. split; [done|]. split; [done|].
      exists configFile. split; [by left|]. apply lookup_insert_eq.
    + destruct (IH _ _ _ Hrun) as (Hfiles & Htrace & Hfound).
      split; [done|]. split; [done|]. destruct found; [|done].
      destruct Hfound as (f & Hf & Hheld). exists f. split; [by right|done].
Qed.

Lemma populate_world pairs : forall obj w, (populate obj pairs w).1 = w.
Proof.
  induction pairs as [|[key text] pairs IH]; intros obj w; simpl; [done|].
  unfold mbind, M_bind, complete.
  destruct (setNestedProperty obj key _) as [t [|e]]; simpl; [apply IH|done].
Qed.

Section NewLanguage.
Context {io : Collaborators}.

(** X13: when [addNewLanguage] completes, the code was well formed and not
    configured under a name; one of the two configuration files holds the
    configuration with the new language under its name and every other
    language as before; the catalog of the new language exists and no
    other catalog has changed; and a result that is not translated comes
    with the empty catalog and no keys, while a translated one was asked
    for and counts the keys of the source catalog. *)
Theorem add_language_completed (w w' : world) (cfg : config)
    (langCode languageName : string) (translateFromSource : bool)
    (result : language_result) :
  addNewLanguage langCode languageName cfg translateFromSource w
  = (w', Done result) ->
  let updated :=
    Config (langDir cfg) (sourceLanguage cfg)
      (set_language (languages cfg) langCode languageName) in
  (truthy (language_name (languages cfg) langCode) = false
   /\ valid_lang_code langCode = true)
  /\ ((exists f, f ∈ [".translation-cli.json"; "translation-cli.config.json"]
                 /\ config_files w' !! f = Some updated)
      /\ language_name (languages updated) langCode = Some languageName
      /\ forall other, other ≠ langCode ->
           language_name (languages updated) other
           = language_name (languages cfg) other)
  /\ ((exists tree, catalogs w' !! langCode = Some (Json tree))
      /\ forall L, L ≠ langCode -> catalogs w' !! L = catalogs w !! L)
  /\ (if translated result
      then translateFromSource = true
           /\ keysCount result = length (reference_keys w cfg)
      else keysCount result = 0 /\ catalogs w' !! langCode = Some (Json [])).
Proof.
  intros Hrun updated. unfold addNewLanguage in Hrun.
  destruct (truthy (language_name (languages cfg) langCode)) eqn:Hnew; [done|].
  destruct (valid_lang_code langCode) eqn:Hcode; [|done]. simpl in Hrun.
  split; [done|]. fold updated in Hrun.
  destruct (update_config [".translation-cli.json"; "translation-cli.config.json"]
              updated w) as [w1 [found|e]] eqn:Hupdate;
    [|by destruct (update_config_keeps_catalogs
                     [".translation-cli.json"; "translation-cli.config.json"]
                     updated w) as (? & ? & ? & _); congruence].
  rewrite (bind_done _ _ _ _ _ Hupdate) in Hrun.
  apply update_config_found in Hupdate as (Hfiles1 & Htrace1 & Hfound).
  set (w2 := if found then w1
             else World (catalogs w1)
                    (<[".translation-cli.json" := updated]> (config_files w1))
                    (trace w1)) in *.
  assert (Hfiles2 : catalogs w2 = catalogs w) by by destruct found.
  assert (Hconfig : exists f,
            f ∈ [".translation-cli.json"; "translation-cli.config.json"]
            /\ config_files w2 !! f = Some updated).
  { destruct found; [done|]. exists ".translation-cli.json".
    split; [by left|]. apply lookup_insert_eq. }
  rewrite (bind_done _ _ _ w2 tt) in Hrun by by destruct found.
  assert (Hfile : catalogs w2 !! sourceLanguage cfg ≠ Some Corrupt).
  { intros Hcorrupt. unfold mbind, M_bind, loadTranslations in Hrun.
    by rewrite Hcorrupt in Hrun. }
  rewrite (bind_done _ _ _ _ _ (loadTranslations_stored _ _ Hfile)) in Hrun.
  assert (Hstored : stored w2 (sourceLanguage cfg) = stored w (sourceLanguage cfg))
    by (unfold stored; by rewrite Hfiles2).
  rewrite Hstored in Hrun. fold (reference_keys w cfg) in Hrun.
  assert (Hsaved : forall t w3,
            catalogs w3 = catalogs w2 -> config_files w3 = config_files w2 ->
            (exists f, f ∈ [".translation-cli.json"; "translation-cli.config.json"]
                       /\ config_files (saveTranslations langCode t w3).1 !! f
                          = Some updated)
            /\ (exists tree, catalogs (saveTranslations langCode t w3).1 !! langCode
                             = Some (Json tree))
            /\ (forall L, L ≠ langCode ->
                  catalogs (saveTranslations langCode t w3).1 !! L
                  = catalogs w !! L)
            /\ catalogs (saveTranslations langCode t w3).1 !! langCode
               = Some (Json (root t))).
  { intros t w3 Hc Hf. unfold saveTranslations. simpl.
    rewrite Hf, Hc, Hfiles2. split; [done|]. split.
    - eexists. apply lookup_insert_eq.
    - split; [|apply lookup_insert_eq].
      intros L HL. by rewrite lookup_insert_ne. }
  split.
  { split; [|split; [apply language_name_set|]].
    2: { intros other Hother. by apply language_name_set_other. }
    revert Hrun. case_bool_decide as Hkeys.
    - intros [= <- _]. by apply (Hsaved (VObj []) w2).
    - destruct translateFromSource.
      + unfold mbind at 1, M_bind at 1, history. cbn beta iota.
        unfold mbind at 1, M_bind at 1, emit. cbn beta iota.
        destruct (batch_failed _ _).
        * intros [= <- _]. by apply (Hsaved (VObj []) _).
        * unfold mbind at 1, M_bind at 1.
          match goal with
          | |- context [populate ?t ?ps ?w0] =>
              pose proof (populate_world ps t w0) as Hpop;
              destruct (populate t ps w0) as [w4 [t4|e4]]; simpl in Hpop
          end; [|done].
          subst w4. intros [= <- _].
          by apply (Hsaved (sortObjectRecursively t4) _).
      + intros [= <- _]. by apply (Hsaved (VObj []) w2). }
  revert Hrun. case_bool_decide as Hkeys.
  { intros [= <- <-]. simpl. split; [|split; [done|]].
    - split; [eexists; apply lookup_insert_eq|].
      intros L HL. by rewrite lookup_insert_ne, Hfiles2.
    - apply lookup_insert_eq. }
  destruct translateFromSource.
  - unfold mbind at 1, M_bind at 1, history. cbn beta iota.
    unfold mbind at 1, M_bind at 1, emit. cbn beta iota.
    destruct (batch_failed _ _).
    + intros [= <- <-]. simpl. split; [|split; [done|]].
      * split; [eexists; apply lookup_insert_eq|].
        intros L HL. by rewrite lookup_insert_ne, Hfiles2.
      * apply lookup_insert_eq.
    + unfold mbind at 1, M_bind at 1.
      match goal with
      | |- context [populate ?t ?ps ?w0] =>
          pose proof (populate_world ps t w0) as Hpop;
          destruct (populate t ps w0) as [w4 [t4|e4]]; simpl in Hpop
      end; [|done].
      subst w4. intros [= <- <-]. simpl. split; [|done].
      split; [eexists; apply lookup_insert_eq|].
      intros L HL. by rewrite lookup_insert_ne, Hfiles2.
  - intros [= <- <-]. simpl. split; [|split; [done|]].
    + split; [eexists; apply lookup_insert_eq|].
      intros L HL. by rewrite lookup_insert_ne, Hfiles2.
    + apply lookup_insert_eq.
Qed.
End NewLanguage.

Lemma add_language_completed_witness :
  exists w' result,
    addNewLanguage (io := garbled) "de-de" "German" sample_config true
      sample_world = (w', Done result)
    /\ language_name
         (set_language (languages sample_config) "de-de" "German") "de-de"
       = Some "German"
    /\ translated result = false
    /\ catalogs w' !! "de-de" = Some (Json []).
Proof.
  eexists _, _. split; [vm_compute; reflexivity|].
  pose proof (add_language_completed (io := garbled) sample_world _
                sample_config "de-de" "German" true _ eq_refl) as Hdone.
  split; [apply Hdone|]. split; [reflexivity|]. apply Hdone.
Defined.

(** ** Writing a list of keys *)

Lemma populate_set_all pairs : forall obj w,
  populate obj pairs w
  = set_all obj (map (fun kv => (kv.1, VPrim (PStr kv.2))) pairs) w.
Proof.
  induction pairs as [|[key text] pairs IH]; intros obj w; simpl; [done|].
  unfold mbind, M_bind.
  destruct (complete _ w) as [w1 [t|e]]; [apply IH|done].
Qed.

Lemma set_all_is_object pairs : forall obj w t,
  is_object obj = true ->
  (set_all obj pairs w).2 = Done t ->
  is_object t = true.
Proof.
  induction pairs as [|[key v] pairs IH]; intros obj w t Hobj Hrun;
    simpl in Hrun.
  - by injection Hrun as <-.
  - unfold mbind, M_bind, complete in Hrun.
    pose proof (setNestedProperty_is_object obj key v Hobj) as Hobj1.
    destruct (setNestedProperty obj key v) as [t1 [|e]]; simpl in *; [|done].
    by eapply IH.
Qed.

(** Writes to keys that part ways with a path leave what the path reads. *)
Lemma set_all_frame Q pairs : forall obj w t,
  (set_all obj pairs w).2 = Done t ->
  Forall (fun kv => paths_diverge kv.1 Q = true) pairs ->
  getNestedProperty t Q = getNestedProperty obj Q.
Proof.
  induction pairs as [|[key v] pairs IH]; intros obj w t Hrun Hkeys;
    simpl in Hrun.
  - by injection Hrun as <-.
  - apply Forall_cons in Hkeys as [Hkey Hkeys]. simpl in Hkey.
    unfold mbind, M_bind, complete in Hrun.
    pose proof (setNestedProperty_frame obj key Q v Hkey) as Hframe.
    destruct (setNestedProperty obj key v) as [t1 [|e]]; simpl in *; [|done].
    rewrite <- Hframe. by eapply IH.
Qed.

(** Writes to keys that part ways two by two are all there in the end. *)
Lemma set_all_get pairs : forall obj w t,
  (set_all obj pairs w).2 = Done t ->
  all_diverge (map fst pairs) = true ->
  forall i key v, pairs !! i = Some (key, v) ->
    getNestedProperty t key = Some v.
Proof.
  induction pairs as [|[key0 v0] pairs IH]; intros obj w t Hrun Hkeys i key v Hi;
    [done|].
  simpl in Hrun, Hkeys. apply andb_true_iff in Hkeys as [Hlater Hkeys].
  unfold mbind, M_bind, complete in Hrun.
  pose proof (setNestedProperty_normal_get obj key0 v0) as Hget.
  destruct (setNestedProperty obj key0 v0) as [t1 [|e]]; simpl in *; [|done].
  destruct i as [|i]; simpl in Hi.
  - injection Hi as <- <-.
    rewrite (set_all_frame key0 pairs t1 w t Hrun); [by apply Hget|].
    apply Forall_forall. intros [k x] Hin.
    rewrite forallb_forall in Hlater. apply Hlater.
    apply list_elem_of_In. apply (list_elem_of_fmap_2 fst) in Hin. exact Hin.
  - by eapply IH.
Qed.

Lemma map_fst_combine {A B : Type} (l : list A) : forall (l' : list B),
  length l = length l' -> map fst (combine l l') = l.
Proof.
  induction l as [|a l IH]; intros [|b l'] Hlen; simpl in *; try done.
  f_equal. apply IH. lia.
Qed.

Lemma combine_lookup {A B : Type} (l : list A) : forall (l' : list B) i a b,
  l !! i = Some a -> l' !! i = Some b -> combine l l' !! i = Some (a, b).
Proof.
  induction l as [|a0 l IH]; intros [|b0 l'] [|i] a b Ha Hb; simpl in *;
    try done.
  - congruence.
  - by apply IH.
Qed.

Lemma omap_get_keys_length (o flat : Obj.props) :
  (forall k, k ∈ Obj.keys o -> is_Some (Obj.get flat k)) ->
  length (omap (fun key => Obj.get flat key) (Obj.keys o)) = length (Obj.keys o).
Proof.
  induction o as [|[k v] o IH]; intros Hall; simpl; [done|].
  destruct (Hall k) as [x Hx]; [by left|]. rewrite Hx. simpl. f_equal.
  apply IH. intros k' Hk'. apply Hall. by right.
Qed.

Section TranslatedLanguage.
Context {io : Collaborators}.

End TranslatedLanguage.


(** ** flattenObject *)

Lemma value_nested_ind (P : value -> Prop) :
  (forall p, P (VPrim p)) ->
  (forall o, Forall (fun kv => P kv.2) o -> P (VObj o)) ->
  forall v, P v.
Proof.
  intros Hprim Hobj. fix IH 1. intros [p|o]; [apply Hprim|].
  apply Hobj. induction o as [|[k v] o IHo]; constructor; [apply IH|apply IHo].
Qed.

Lemma join_split K : join_dot (split_dot K) = K.
Proof.
  induction K as [|c K IH]; [done|]. simpl.
  pose proof (split_dot_nonempty K) as Hne.
  destruct (Ascii.eqb_spec c ".") as [->|Hc].
  - destruct (split_dot K) as [|seg rest] eqn:Hsplit; [done|].
    change (join_dot ("" :: seg :: rest))
      with (String "." (join_dot (seg :: rest))).
    by rewrite IH.
  - destruct (split_dot K) as [|seg rest] eqn:Hsplit; [done|].
    destruct rest as [|seg' rest]; simpl in *; by rewrite <- IH.
Qed.

Lemma split_dot_inj K K' : split_dot K = split_dot K' -> K = K'.
Proof. intros Heq. by rewrite <- (join_split K), Heq, join_split. Qed.

Lemma split_dot_app a b :
  split_dot (a +:+ "." +:+ b) = split_dot a ++ split_dot b.
Proof.
  induction a as [|c a IH]; [done|].
  change (String c a +:+ "." +:+ b) with (String c (a +:+ "." +:+ b)).
  simpl. rewrite IH.
  destruct (Ascii.eqb c "."); [done|].
  pose proof (split_dot_nonempty a) as Hne.
  by destruct (split_dot a).
Qed.

Lemma split_dot_segment key :
  all_chars (fun c => negb (Ascii.eqb c ".")) key = true ->
  split_dot key = [key].
Proof.
  unfold all_chars. induction key as [|c key IH]; simpl; [done|].
  intros [Hc Hkey]%andb_true_iff. apply negb_true_iff in Hc. rewrite Hc.
  by rewrite IH.
Qed.

(** The key under which [flattenObject] files the key [key] of an object
    that it entered with [prefix]. *)
Lemma split_dot_qualified prefix key :
  segment key = true ->
  split_dot (if String.eqb prefix "" then key else prefix +:+ "." +:+ key)
  = pre_of prefix ++ [key]
  /\ pre_of (if String.eqb prefix "" then key else prefix +:+ "." +:+ key)
     = pre_of prefix ++ [key].
Proof.
  unfold segment, pre_of. intros [Hne Hdots]%andb_true_iff.
  apply negb_true_iff in Hne.
  destruct (String.eqb_spec prefix "") as [->|Hprefix].
  - rewrite Hne. by rewrite split_dot_segment.
  - rewrite split_dot_app, (split_dot_segment key) by done.
    destruct prefix as [|c prefix]; [done|]. done.
Qed.

Lemma drop_prefix_snoc pre k : forall l,
  drop_prefix (pre ++ [k]) l
  = match drop_prefix pre l with
    | Some (k0 :: r) => if String.eqb k k0 then Some r else None
    | _ => None
    end.
Proof.
  induction pre as [|a pre IH]; intros [|b l]; simpl; try done.
  destruct (String.eqb a b); [apply IH|done].
Qed.

Lemma drop_prefix_all pre : forall l, drop_prefix pre l = Some [] <-> l = pre.
Proof.
  induction pre as [|a pre IH]; intros [|b l]; simpl;
    try (split; intros Heq; by inversion Heq).
  destruct (String.eqb_spec a b) as [->|Hne].
  - rewrite IH. split; intros Heq; by inversion Heq.
  - split; intros Heq; inversion Heq. by destruct Hne.
Qed.

Lemma keys_set o k v :
  Obj.keys (Obj.set o k v) = if bool_decide (k ∈ Obj.keys o) then Obj.keys o
                             else Obj.keys o ++ [k].
Proof.
  induction o as [|[k' v'] o IH]; simpl; [done|].
  destruct (String.eqb_spec k' k) as [->|Hne]; simpl.
  - by rewrite bool_decide_eq_true_2 by by left.
  - rewrite IH. case_bool_decide as Hin.
    + by rewrite bool_decide_eq_true_2 by by right.
    + rewrite bool_decide_eq_false_2; [done|].
      by intros [?|?]%elem_of_cons.
Qed.

Lemma keys_set_NoDup o k v :
  NoDup (Obj.keys o) -> NoDup (Obj.keys (Obj.set o k v)).
Proof.
  intros Ho. rewrite keys_set. case_bool_decide as Hin; [done|].
  apply NoDup_app. split; [done|]. split; [|apply NoDup_singleton].
  by intros x Hx ->%list_elem_of_singleton.
Qed.

Lemma assign_NoDup source : forall target,
  NoDup (Obj.keys target) -> NoDup (Obj.keys (assign target source)).
Proof.
  unfold assign. induction source as [|[k v] source IH]; intros target Ht;
    simpl; [done|].
  by apply IH, keys_set_NoDup.
Qed.

Lemma get_assign source : forall target K,
  NoDup (Obj.keys source) ->
  Obj.get (assign target source) K
  = match Obj.get source K with
    | Some x => Some x
    | None => Obj.get target K
    end.
Proof.
  unfold assign. induction source as [|[k v] source IH]; intros target K Hs;
    simpl; [done|].
  apply NoDup_cons in Hs as [Hk Hs]. rewrite IH by done.
  destruct (String.eqb_spec k K) as [->|Hne].
  - assert (Hnone : Obj.get source K = None).
    { destruct (Obj.get source K) eqn:Hget; [|done].
      destruct Hk. apply get_in_keys. by eauto. }
    by rewrite Hnone, ObjFacts.get_set_eq.
  - by rewrite ObjFacts.get_set_ne.
Qed.

Lemma flatten_entry_obj prefix flattened key o :
  flatten_entry prefix flattened key (VObj o)
  = assign flattened
      (flattenObject o
         (if String.eqb prefix "" then key else prefix +:+ "." +:+ key)).
Proof.
  cbn [flatten_entry]. f_equal. unfold flattenObject.
  generalize (@nil (string * value)).
  induction o as [|[k v] o IH]; intros acc; simpl; [done|]. apply IH.
Qed.

Lemma flatten_entry_NoDup prefix flattened key v :
  NoDup (Obj.keys flattened) ->
  NoDup (Obj.keys (flatten_entry prefix flattened key v)).
Proof.
  intros Hf. destruct v as [p|o].
  - by apply keys_set_NoDup.
  - rewrite flatten_entry_obj. by apply assign_NoDup.
Qed.

Lemma flattenObject_NoDup o prefix : NoDup (Obj.keys (flattenObject o prefix)).
Proof.
  unfold flattenObject.
  generalize (@NoDup_nil_2 string). change (@nil string) with (Obj.keys []).
  generalize (@nil (string * value)).
  induction o as [|[k v] o IH]; intros acc Hacc; simpl; [done|].
  by apply IH, flatten_entry_NoDup.
Qed.

Lemma well_keyed_obj o :
  well_keyed (VObj o) = true ->
  Forall (fun kv => segment kv.1 = true /\ well_keyed kv.2 = true) o
  /\ NoDup (Obj.keys o).
Proof.
  cbn [well_keyed]. intros [[Hkeys Hnodup]%andb_true_iff Hsub]%andb_true_iff.
  split; [|by apply bool_decide_eq_true_1 in Hnodup].
  rewrite forallb_forall in Hkeys, Hsub. apply Forall_forall.
  intros [k v] Hin. split.
  - apply Hkeys, list_elem_of_In. by apply (list_elem_of_fmap_2 fst) in Hin.
  - by apply (Hsub (k, v)), list_elem_of_In.
Qed.

(** The turns of the loop of [flattenObject] over an object whose children
    are filed as the tree reads them. *)
Lemma flatten_fold_get prefix o :
  Forall (fun kv => forall prefix key acc K,
            segment key = true -> well_keyed kv.2 = true ->
            Obj.get (flatten_entry prefix acc key kv.2) K
            = match leaf_under (pre_of prefix ++ [key]) kv.2 K with
              | Some x => Some x
              | None => Obj.get acc K
              end) o ->
  well_keyed (VObj o) = true ->
  forall acc K,
    Obj.get (fold_left (fun a kv => flatten_entry prefix a kv.1 kv.2) o acc) K
    = match leaf_under (pre_of prefix) (VObj o) K with
      | Some x => Some x
      | None => Obj.get acc K
      end.
Proof.
  intros Hchildren [Hkeyed Hnodup]%well_keyed_obj.
  induction o as [|[k v] o IH]; intros acc K.
  - simpl. unfold leaf_under.
    destruct (drop_prefix (pre_of prefix) (split_dot K)) as [[|k0 r]|];
      [done| |done].
    by rewrite get_keys_cons.
  - apply Forall_cons in Hchildren as [Hchild Hchildren].
    apply Forall_cons in Hkeyed as [[Hseg Hv] Hkeyed].
    apply NoDup_cons in Hnodup as [Hk Hnodup]. simpl in *.
    rewrite IH, Hchild by done.
    unfold leaf_under. rewrite drop_prefix_snoc.
    destruct (drop_prefix (pre_of prefix) (split_dot K)) as [[|k0 r]|]; [done| |done].
    rewrite !get_keys_cons. simpl.
    destruct (String.eqb_spec k k0) as [<-|Hne]; [|done].
    assert (Hnone : Obj.get o k = None).
    { destruct (Obj.get o k) eqn:Hget; [|done].
      destruct Hk. apply get_in_keys. by eauto. }
    by rewrite Hnone.
Qed.

(** One turn of that loop files the leaves of the child under their paths
    and leaves the other keys alone. *)
Lemma flatten_entry_get v : forall prefix key acc K,
  segment key = true -> well_keyed v = true ->
  Obj.get (flatten_entry prefix acc key v) K
  = match leaf_under (pre_of prefix ++ [key]) v K with
    | Some x => Some x
    | None => Obj.get acc K
    end.
Proof.
  induction v as [p|o IH] using value_nested_ind; intros prefix key acc K Hseg Hv.
  - cbn [flatten_entry].
    destruct (split_dot_qualified prefix key Hseg) as [Hsplit _].
    revert Hsplit.
    generalize (if String.eqb prefix "" then key else prefix +:+ "." +:+ key).
    intros newKey Hsplit. unfold leaf_under. rewrite <- Hsplit.
    destruct (String.eqb_spec newKey K) as [<-|Hne].
    + rewrite (proj2 (drop_prefix_all _ _) eq_refl).
      by rewrite ObjFacts.get_set_eq.
    + rewrite ObjFacts.get_set_ne by done.
      destruct (drop_prefix (split_dot newKey) (split_dot K)) as [[|k0 r]|]
        eqn:Hdrop; [|by rewrite get_keys_prim|done].
      apply drop_prefix_all, split_dot_inj in Hdrop. by destruct Hne.
  - rewrite flatten_entry_obj, get_assign by apply flattenObject_NoDup.
    destruct (split_dot_qualified prefix key Hseg) as [_ Hpre].
    unfold flattenObject. rewrite (flatten_fold_get _ o IH Hv), Hpre.
    by destruct (leaf_under _ _ _).
Qed.



(** Two paths that a tree reads as leaves are the same path or part
    ways. *)
Lemma leaves_part_ways T K K' p p' :
  getNestedProperty T K = Some (VPrim p) ->
  getNestedProperty T K' = Some (VPrim p') ->
  K ≠ K' -> paths_diverge K K' = true.
Proof.
  unfold getNestedProperty, paths_diverge. intros HK HK' Hne.
  destruct (diverge (split_dot K) (split_dot K')) eqn:Hd; [done|].
  destruct Hne. apply split_dot_inj.
  apply diverge_false in Hd as [[r Hr]|(x & r & Hr)].
  - rewrite Hr, get_keys_app, HK in HK'.
    destruct r as [|x r]; [by rewrite app_nil_r in Hr|].
    simpl in HK'. by rewrite fold_opt_index_None in HK'.
  - rewrite Hr, get_keys_app, HK' in HK.
    simpl in HK. by rewrite fold_opt_index_None in HK.
Qed.

Lemma all_diverge_leaves T keys :
  NoDup keys ->
  (forall K, K ∈ keys -> exists p, getNestedProperty T K = Some (VPrim p)) ->
  all_diverge keys = true.
Proof.
  induction keys as [|key keys IH]; intros Hnodup Hleaves; simpl; [done|].
  apply NoDup_cons in Hnodup as [Hkey Hnodup].
  apply andb_true_iff. split.
  - apply forallb_forall. intros later Hlater%list_elem_of_In.
    destruct (Hleaves key) as [p Hp]; [by left|].
    destruct (Hleaves later) as [p' Hp']; [by right|].
    apply (leaves_part_ways T later key p' p); [done..|].
    by intros ->.
  - apply IH; [done|]. intros K HK. apply Hleaves. by right.
Qed.

Lemma flat_key_leaf tree K :
  well_keyed (VObj tree) = true ->
  K ∈ Obj.keys (flattenObject tree "")
  <-> exists p, getNestedProperty (VObj tree) K = Some (VPrim p).
Proof.
  intros Hkeyed. rewrite <- get_in_keys.
  pose proof (flatten_fold_get "" tree) as Hget.
  assert (Hflat : Obj.get (flattenObject tree "") K
                  = keep_leaf (getNestedProperty (VObj tree) K)).
  { unfold flattenObject. rewrite Hget; try done.
    - unfold leaf_under, pre_of, getNestedProperty. simpl.
      by destruct (keep_leaf _).
    - apply Forall_forall. intros kv _. apply flatten_entry_get. }
  rewrite Hflat.
  destruct (getNestedProperty (VObj tree) K) as [[p|o]|]; simpl.
  - split; by eauto.
  - split; [by intros [? ?]|by intros [? ?]].
  - split; [by intros [? ?]|by intros [? ?]].
Qed.



(** ** generateMissingKeysJSON *)

(** After a leaf was written, the leaves of the tree are that one and the
    ones that were there. *)
Lemma set_keys_leaf_inv keys : forall current lastKey pv current' q p,
  set_keys current keys lastKey (VPrim pv) = (current', Normal) ->
  get_keys current' q = Some (VPrim p) ->
  q = keys ++ [lastKey] \/ get_keys current q = Some (VPrim p).
Proof.
  induction keys as [|key keys IH];
    intros [p0|o] lastKey pv current' q p Hset Hleaf; simpl in Hset; try done.
  - injection Hset as <-. destruct q as [|a q]; [done|].
    rewrite get_keys_cons in Hleaf. rewrite get_keys_cons.
    destruct (String.eqb_spec lastKey a) as [<-|Hne].
    + rewrite ObjFacts.get_set_eq in Hleaf. left.
      destruct q as [|b q]; [done|]. by rewrite get_keys_prim in Hleaf.
    + rewrite ObjFacts.get_set_ne in Hleaf by done. by right.
  - destruct (set_keys _ keys lastKey (VPrim pv)) as [child' c] eqn:Hchild.
    injection Hset as <- ->. destruct q as [|a q]; [done|].
    rewrite get_keys_cons in Hleaf. rewrite get_keys_cons.
    destruct (String.eqb_spec key a) as [<-|Hne].
    + rewrite ObjFacts.get_set_eq in Hleaf.
      destruct (IH _ _ _ _ _ _ Hchild Hleaf) as [->|Hold]; [by left|right].
      destruct (Obj.get o key) as [c|]; [done|].
      destruct q as [|b q]; [done|]. by rewrite get_keys_cons in Hold.
    + rewrite ObjFacts.get_set_ne in Hleaf by done. by right.
Qed.

Lemma setNestedProperty_leaf_inv T P pv T' Q p :
  setNestedProperty T P (VPrim pv) = (T', Normal) ->
  getNestedProperty T' Q = Some (VPrim p) ->
  Q = P \/ getNestedProperty T Q = Some (VPrim p).
Proof.
  unfold setNestedProperty, pop, getNestedProperty. intros Hset Hleaf.
  destruct (set_keys_leaf_inv _ _ _ _ _ _ _ Hset Hleaf) as [Hsame|Hold];
    [left|by right].
  apply split_dot_inj. rewrite Hsame. symmetry. apply split_dot_pop.
Qed.

Lemma set_all_leaf_inv Q p pairs : forall obj w t,
  (set_all obj pairs w).2 = Done t ->
  Forall (fun kv => is_object kv.2 = false) pairs ->
  getNestedProperty t Q = Some (VPrim p) ->
  Q ∈ pairs.*1 \/ getNestedProperty obj Q = Some (VPrim p).
Proof.
  induction pairs as [|[key v] pairs IH]; intros obj w t Hrun Hprims Hleaf;
    simpl in Hrun.
  - injection Hrun as <-. by right.
  - apply Forall_cons in Hprims as [Hprim Hprims]. simpl in Hprim.
    destruct v as [pv|]; [|done].
    unfold mbind, M_bind, complete in Hrun.
    destruct (setNestedProperty obj key (VPrim pv)) as [t1 [|e]] eqn:Hset;
      simpl in Hrun; [|done].
    destruct (IH _ _ _ Hrun Hprims Hleaf) as [Hin|Hold].
    + left. by right.
    + destruct (setNestedProperty_leaf_inv _ _ _ _ _ _ Hset Hold) as [->|?].
      * left. by left.
      * by right.
Qed.

Lemma stored_root w L : stored w L = VObj (root (stored w L)).
Proof. symmetry. apply root_object, stored_object. Qed.



(** ** The usage map of a scan *)

Lemma usage_push_keys m key file :
  (usage_push m key file).*1 = set_add m.*1 key.
Proof.
  induction m as [|[k files] m IH]; [done|].
  cbn [usage_push]. rewrite fmap_cons. cbn [fst].
  destruct (String.eqb_spec k key) as [->|Hne].
  - unfold set_add. by rewrite bool_decide_eq_true_2 by by left.
  - rewrite fmap_cons, IH. cbn [fst]. unfold set_add.
    case_bool_decide as Hin.
    + by rewrite bool_decide_eq_true_2 by by right.
    + rewrite bool_decide_eq_false_2; [done|].
      by intros [?|?]%elem_of_cons.
Qed.

Lemma usage_get_keys m key : is_Some (usage_get m key) <-> key ∈ m.*1.
Proof.
  induction m as [|[k files] m IH]; simpl.
  - split; [by intros [? ?]|by intros ?%elem_of_nil].
  - destruct (String.eqb_spec k key) as [->|Hne].
    + split; [by left|by eauto].
    + rewrite IH, elem_of_cons. split; [by right|]. by intros [?|?].
Qed.

Lemma usage_push_get m key file key' :
  usage_get (usage_push m key file) key'
  = if String.eqb key key' then Some (default [] (usage_get m key) ++ [file])
    else usage_get m key'.
Proof.
  induction m as [|[k files] m IH]; simpl.
  - by destruct (String.eqb key key').
  - destruct (String.eqb_spec k key) as [->|Hne]; simpl.
    + by destruct (String.eqb key key').
    + destruct (String.eqb_spec k key') as [->|Hne'].
      * by rewrite (proj2 (String.eqb_neq _ _)) by done.
      * apply IH.
Qed.

(** The keys of one file pushed on the usage map: the map lists the keys
    as the used keys do, and every key of the file has the file once
    more. *)
Lemma usage_push_all file keys : forall m,
  NoDup keys ->
  (fold_left (fun m key => usage_push m key file) keys m).*1
  = fold_left set_add keys m.*1
  /\ forall key,
       default [] (usage_get
                     (fold_left (fun m key => usage_push m key file) keys m) key)
       = default [] (usage_get m key)
         ++ (if bool_decide (key ∈ keys) then [file] else []).
Proof.
  induction keys as [|k keys IH]; intros m Hnodup; simpl.
  - split; [done|]. intros key. by rewrite app_nil_r.
  - apply NoDup_cons in Hnodup as [Hk Hnodup].
    destruct (IH (usage_push m k file) Hnodup) as [Hkeys Hget].
    split; [by rewrite Hkeys, usage_push_keys|].
    intros key. rewrite Hget, usage_push_get.
    destruct (String.eqb_spec k key) as [->|Hne]; simpl.
    + rewrite bool_decide_eq_false_2 by done.
      rewrite bool_decide_eq_true_2 by by left.
      by rewrite app_nil_r.
    + f_equal. case_bool_decide as Hin.
      * by rewrite bool_decide_eq_true_2 by by right.
      * rewrite bool_decide_eq_false_2; [done|].
        by intros [?|?]%elem_of_cons.
Qed.

Section UsageMap.
Context {io : Collaborators}.

Lemma scan_loop_usage scanDir files : forall used usage scanned errors,
  usage.*1 = used ->
  let r := scan_loop scanDir files used usage scanned errors in
  r.1.1.2.*1 = r.1.1.1
  /\ r.1.2 = scanned + length files
  /\ r.2 = errors + length (unreadable files)
  /\ forall key,
       default [] (usage_get r.1.1.2 key)
       = default [] (usage_get usage key) ++ files_using scanDir key files.
Proof.
  induction files as [|f files IH]; intros used usage scanned errors Hkeys.
  - simpl. split; [done|]. split; [lia|]. split; [lia|].
    intros key. by rewrite app_nil_r.
  - cbn [scan_loop]. unfold files_using, unreadable. cbn [List.filter].
    destruct (scanFile f) as [keys|] eqn:Hscan.
    + assert (Hread : exists text, content f = Some text
                                   /\ keys = extractTranslationKeys text).
      { unfold scanFile in Hscan. destruct (content f) as [text|]; [|done].
        injection Hscan as <-. by eauto. }
      destruct Hread as (text & Hcontent & ->). rewrite Hcontent.
      rewrite (bool_decide_eq_true_2 (is_Some (Some text))) by by eauto.
      cbn [negb length].
      destruct (usage_push_all (path_relative scanDir (filePath f))
                  (extractTranslationKeys text) usage
                  (extractTranslationKeys_NoDup text)) as [Hpushed Hget].
      rewrite Hkeys in Hpushed.
      destruct (IH _ _ (S scanned) errors Hpushed) as (H1 & H2 & H3 & H4).
      split; [done|]. split; [lia|]. split; [done|].
      intros key. rewrite H4, Hget, <- app_assoc. f_equal.
      unfold files_using. by case_bool_decide.
    + assert (Hcontent : content f = None).
      { unfold scanFile in Hscan. by destruct (content f). }
      rewrite Hcontent.
      rewrite (bool_decide_eq_false_2 (is_Some None)) by by intros [? ?].
      cbn [negb length].
      destruct (IH _ _ (S scanned) (S errors) Hkeys) as (H1 & H2 & H3 & H4).
      split; [done|]. split; [lia|]. split; [unfold unreadable in H3; lia|].
      done.
Qed.

End UsageMap.


(** ** Renaming a key to a path below itself *)

Lemma drop_prefix_app pre : forall l r,
  drop_prefix pre l = Some r -> l = pre ++ r.
Proof.
  induction pre as [|a pre IH]; intros [|b l] r; simpl; try done.
  - by intros [= <-].
  - by intros [= <-].
  - destruct (String.eqb_spec a b) as [->|Hne]; [|done].
    intros Hdrop. by rewrite (IH _ _ Hdrop).
Qed.

Lemma below_undefined T P Q :
  below P Q = true ->
  getNestedProperty T P = None -> getNestedProperty T Q = None.
Proof.
  unfold below, getNestedProperty. intros Hbelow Hnone.
  destruct (drop_prefix (split_dot P) (split_dot Q)) as [[|x r]|] eqn:Hdrop;
    try done.
  rewrite (drop_prefix_app _ _ _ Hdrop), get_keys_app, Hnone.
  apply fold_opt_index_None.
Qed.



(** ** A translation service that gives nothing *)

Section SilentService.
Context {io : Collaborators}.

Lemma should_write_reads langCode key sourceText translations force interactive w :
  exists w1 b,
    should_write langCode key sourceText translations force interactive w
    = (w1, Done b)
    /\ catalogs w1 = catalogs w.
Proof.
  unfold should_write.
  destruct (translationExists translations key); [|by eexists _, _].
  destruct (negb force && interactive); by eexists _, _.
Qed.

Lemma confirm_pairs_reads langCode translations existingPairs :
  forall newPairs w,
  exists w1 r,
    confirm_pairs langCode translations existingPairs newPairs w = (w1, Done r)
    /\ catalogs w1 = catalogs w.
Proof.
  induction existingPairs as [|entry rest IH]; intros newPairs w; simpl.
  - by eexists _, _.
  - unfold mbind, M_bind, history, emit. cbn beta iota.
    edestruct IH as (w1 & r & Hrun & Hfiles). rewrite Hrun.
    by eexists _, _.
Qed.

Lemma add_turn_silent key sourceText cfg force interactive lang w :
  (forall past text target source,
     truthy (translateText past text target source) = false) ->
  lang.1 ≠ sourceLanguage cfg ->
  catalogs (add_to_language key sourceText cfg force interactive lang w).1
  = catalogs w.
Proof.
  intros Hsilent Hne. unfold add_to_language.
  assert (Hcases : catalogs w !! lang.1 = Some Corrupt
                   \/ catalogs w !! lang.1 ≠ Some Corrupt)
    by (destruct (catalogs w !! lang.1) as [[|]|]; by eauto).
  destruct Hcases as [Hcorrupt|Hfile].
  { unfold mbind, M_bind, loadTranslations. by rewrite Hcorrupt. }
  rewrite (bind_done _ _ _ _ _ (loadTranslations_stored _ _ Hfile)).
  destruct (should_write_reads lang.1 key sourceText (stored w lang.1) force
              interactive w) as (w1 & b & Hwrite & Hfiles).
  rewrite (bind_done _ _ _ _ _ Hwrite).
  destruct b; [|done]. cbn [negb].
  unfold text_for. rewrite (proj2 (String.eqb_neq _ _) Hne).
  unfold mbind, M_bind, history, emit. cbn beta iota.
  by rewrite Hsilent.
Qed.

Lemma batch_turn_silent pairs cfg force interactive lang w :
  (forall past texts target source,
     batch_failed (batchTranslate past texts target source) (length texts)
     = true) ->
  lang.1 ≠ sourceLanguage cfg ->
  catalogs (batch_to_language pairs cfg force interactive lang w).1
  = catalogs w.
Proof.
  intros Hsilent Hne. unfold batch_to_language.
  assert (Hcases : catalogs w !! lang.1 = Some Corrupt
                   \/ catalogs w !! lang.1 ≠ Some Corrupt)
    by (destruct (catalogs w !! lang.1) as [[|]|]; by eauto).
  destruct Hcases as [Hcorrupt|Hfile].
  { unfold mbind, M_bind, loadTranslations. by rewrite Hcorrupt. }
  rewrite (bind_done _ _ _ _ _ (loadTranslations_stored _ _ Hfile)).
  set (existingPairs := List.filter _ pairs).
  set (newPairs := List.filter _ pairs).
  assert (Hchosen : exists w1 chosen,
            (if negb (Nat.eqb (length existingPairs) 0) && negb force
                && interactive
             then confirm_pairs lang.1 (stored w lang.1) existingPairs newPairs
             else if negb (Nat.eqb (length existingPairs) 0) && force
                  then mret (newPairs ++ existingPairs)
                  else mret newPairs) w = (w1, Done chosen)
            /\ catalogs w1 = catalogs w).
  { destruct (_ && _ && interactive); [apply confirm_pairs_reads|].
    destruct (_ && force); by eexists _, _. }
  destruct Hchosen as (w1 & chosen & Hrun & Hfiles).
  rewrite (bind_done _ _ _ _ _ Hrun).
  destruct (Nat.eqb (length chosen) 0); [done|].
  unfold texts_for. rewrite (proj2 (String.eqb_neq _ _) Hne).
  unfold mbind, M_bind, history, emit. cbn beta iota.
  specialize (Hsilent (trace w1)
                (map (fun entry : string * string => VPrim (PStr entry.2)) chosen)).
  rewrite length_map in Hsilent. by rewrite length_map, Hsilent.
Qed.

(** X20: with a translation service that gives nothing usable (no text, or
    a batch answer that is missing or of another length), [addTranslation]
    and [batchAddTranslations] write to the source language only: the file
    of every other language is what it was, whatever the options and
    however the command ends. *)
Theorem silent_service_writes_source_only (w : world) (cfg : config)
    (L : string) :
  (forall past text target source,
     truthy (translateText past text target source) = false) ->
  (forall past texts target source,
     batch_failed (batchTranslate past texts target source) (length texts)
     = true) ->
  L ≠ sourceLanguage cfg ->
  (forall key sourceText force interactive,
     catalogs (addTranslation key sourceText cfg force interactive w).1 !! L
     = catalogs w !! L)
  /\ (forall pairs force interactive,
        catalogs (batchAddTranslations pairs cfg force interactive w).1 !! L
        = catalogs w !! L).
Proof.
  intros Htext Hbatch Hne. split.
  - intros key sourceText force interactive. unfold addTranslation.
    apply (for_each_preserves _
             (fun w1 => catalogs w1 !! L = catalogs w !! L)); [|done].
    intros lang w1 Hkept. destruct (decide (lang.1 = L)) as [Hsame|Hother].
    + rewrite add_turn_silent; [done..|]. by rewrite Hsame.
    + pose proof (add_to_language_tagged key sourceText cfg force interactive
                    lang w1) as [Hfiles _].
      rewrite Hfiles by done. done.
  - intros pairs force interactive. unfold batchAddTranslations.
    apply (for_each_preserves _
             (fun w1 => catalogs w1 !! L = catalogs w !! L)); [|done].
    intros lang w1 Hkept. destruct (decide (lang.1 = L)) as [Hsame|Hother].
    + rewrite batch_turn_silent; [done..|]. by rewrite Hsame.
    + pose proof (batch_to_language_tagged pairs cfg force interactive
                    lang w1) as [Hfiles _].
      rewrite Hfiles by done. done.
Qed.
End SilentService.

Lemma silent_service_writes_source_only_witness :
  catalogs (addTranslation (io := offline) "button.submit" "Submit"
              sample_config true false sample_world).1 !! "pt-pt"
  = catalogs sample_world !! "pt-pt".
Proof.
  apply (silent_service_writes_source_only (io := offline) sample_world
           sample_config "pt-pt"); [reflexivity|reflexivity|done].
Defined.

(** ** What the patterns capture *)

Lemma includes_cons c s sub :
  includes s sub = true -> includes (String c s) sub = true.
Proof. intros Hin. simpl. by destruct (strip sub (String c s)). Qed.

Lemma strip_includes lit s r : strip lit s = Some r -> includes s lit = true.
Proof. intros Hstrip. destruct s; simpl; by rewrite Hstrip. Qed.

(** What is found after a literal was taken off the front of a text is
    found in the text. *)
Lemma strip_tail k lit : forall s s1,
  strip lit s = Some s1 -> includes s1 k = true -> includes s k = true.
Proof.
  induction lit as [|a lit IH]; intros [|b s] s1; simpl; try done.
  - by intros [= <-].
  - by intros [= <-].
  - destruct (Ascii.eqb a b); [|done].
    intros Hstrip Hin. by apply includes_cons, (IH _ _ Hstrip).
Qed.

Lemma skip_space_tail k : forall n s,
  String.length s <= n ->
  includes (skip_space s) k = true -> includes s k = true.
Proof.
  induction n as [|n IH]; intros [|c s1] Hlen; simpl in Hlen; try done;
    try lia.
  cbn [skip_space].
  destruct (_ || _).
  { intros Hin. apply includes_cons, IH; [lia|done]. }
  destruct s1 as [|c1 s2]; [done|]. simpl in Hlen.
  destruct (byte_is 194 c && byte_is 160 c1).
  { intros Hin. do 2 apply includes_cons. apply IH; [lia|done]. }
  destruct s2 as [|c2 s3]; [done|]. simpl in Hlen.
  destruct (_ || _); [|done].
  intros Hin. do 3 apply includes_cons. apply IH; [lia|done].
Qed.

Lemma span_strip p : forall s key rest,
  span p s = (key, rest) ->
  strip key s = Some rest /\ all_chars p key = true.
Proof.
  unfold all_chars.
  induction s as [|c s IH]; intros key rest; simpl.
  - by intros [= <- <-].
  - destruct (p c) eqn:Hc; [|by intros [= <- <-]].
    destruct (span p s) as [run rest'] eqn:Hspan. intros [= <- <-].
    destruct (IH _ _ eq_refl) as [Hstrip Hall]. simpl.
    by rewrite Ascii.eqb_refl, Hc.
Qed.

(** A match captures a non-empty literal of allowed characters that stands
    in the text. *)
Lemma match_here_captures p prev s key rest :
  match_here p prev s = Some (key, rest) ->
  includes s key = true /\ key ≠ ""
  /\ all_chars (fun c => negb (is_one_of (excluded p) c)) key = true.
Proof.
  unfold match_here. destruct (_ && _); [done|].
  destruct (strip (callee p) s) as [s1|] eqn:H1; [|done].
  cbn -[strip skip_space span].
  destruct (strip "(" (skip_space s1)) as [s2|] eqn:H2; [|done].
  cbn -[strip skip_space span].
  destruct (skip_space s2) as [|q s3] eqn:H3; [done|].
  destruct (is_one_of (quotes p) q); [|done].
  destruct (span _ s3) as [key' s4] eqn:Hspan.
  destruct key' as [|c key']; [done|]. destruct s4 as [|q' s5]; [done|].
  destruct (is_one_of (quotes p) q'); [|done]. intros [= <- <-].
  apply span_strip in Hspan as [Hstrip Hall].
  split; [|done].
  apply (strip_tail _ _ _ _ H1).
  apply (skip_space_tail _ _ _ (le_n _)).
  apply (strip_tail _ _ _ _ H2).
  apply (skip_space_tail _ _ _ (le_n _)). rewrite H3.
  by apply includes_cons, (strip_includes _ _ _ Hstrip).
Qed.

Lemma exec_all_captures p k : forall s prev skip,
  k ∈ exec_all p prev skip s ->
  includes s k = true /\ k ≠ ""
  /\ all_chars (fun c => negb (is_one_of (excluded p) c)) k = true.
Proof.
  induction s as [|c s IH]; intros prev skip; simpl.
  - by intros ?%elem_of_nil.
  - assert (Hlater : forall prev' skip',
              k ∈ exec_all p prev' skip' s ->
              includes (String c s) k = true /\ k ≠ ""
              /\ all_chars (fun c => negb (is_one_of (excluded p) c)) k = true).
    { intros prev' skip' Hin. destruct (IH _ _ Hin) as (Hfound & Hrest).
      split; [by apply includes_cons|done]. }
    destruct skip as [|n]; [|apply Hlater].
    destruct (match_here p prev (String c s)) as [[key rest]|] eqn:Hmatch;
      [|apply Hlater].
    intros [->|Hin]%elem_of_cons; [|by eapply Hlater].
    by apply match_here_captures in Hmatch.
Qed.

(** X21: every key that [extractTranslationKeys] returns stands in the
    text as it is, is not empty, holds no backtick and none of the markers
    of a key built at run time. *)
Theorem extracted_keys_stand_in_the_text (content key : string) :
  key ∈ extractTranslationKeys content ->
  includes content key = true
  /\ key ≠ ""
  /\ dynamic key = false
  /\ all_chars (fun c => negb (Ascii.eqb c "`")) key = true.
Proof.
  intros (Hstatic & p & Hp & Hin)%extractTranslationKeys_elem.
  apply exec_all_captures in Hin as (Hfound & Hne & Hchars).
  split; [done|]. split; [done|]. split; [done|].
  unfold all_chars in *. rewrite forallb_forall in Hchars.
  apply forallb_forall. intros c Hc. specialize (Hchars c Hc).
  apply negb_true_iff. apply negb_true_iff in Hchars.
  destruct (Ascii.eqb_spec c "`") as [->|]; [|done].
  unfold TRANSLATION_PATTERNS in Hp.
  repeat (apply elem_of_cons in Hp as [->|Hp]; [by vm_compute in Hchars|]).
  by apply elem_of_nil in Hp.
Qed.

Lemma extracted_keys_stand_in_the_text_witness :
  includes "save(t('button.save')); $t('phantom.key')" "button.save" = true
  /\ "button.save" ≠ ""
  /\ dynamic "button.save" = false
  /\ all_chars (fun c => negb (Ascii.eqb c "`")) "button.save" = true.
Proof.
  apply (extracted_keys_stand_in_the_text
           "save(t('button.save')); $t('phantom.key')" "button.save").
  by apply (bool_decide_unpack _).
Defined.
